(** * ZenFS zone-cleaning fork: the zone pool and the file shims

    A shallow embedding of [env/zbd_zenfs.h] and [env/io_zenfs.h].

    Conventions.
    - Fixed-width integers ([uint32_t], [uint64_t], [int], [long]) are
      [Z]; where the code narrows a value the wrap-around is written out.
    - Pointers are addresses in [Z], [nullptr] is [0].  A [Zone*] held by an
      extent is the zone's handle in the pool.
    - [std::string] contents that travel through the metadata encoding are
      [list byte]; diagnostics are [string].
    - A member function that mutates [this] returns the new object.
    - The two headers declare several member functions whose bodies live in
      the matching [.cc] files.  Where one of those is needed it is modelled
      from the specification and marked as such. *)

From Stdlib Require Import ZArith List Bool Lia Permutation String.
From Stdlib Require Import Strings.Byte.
Import ListNotations.
Open Scope Z_scope.

(* ================================================================== *)
(** * Part I: the embedding *)
(* ================================================================== *)

Definition pointer := Z.
Definition nullptr : pointer := 0.

Definition uint32_wrap (v : Z) : Z := v mod 2 ^ 32.

Definition newline : string := String (Ascii.ascii_of_nat 10) EmptyString.

(** ** [rocksdb::Status] / [rocksdb::IOStatus]

    The enumerations of [rocksdb/status.h]; [NoSpace] is an I/O error with
    the [kNoSpace] sub-code, as in RocksDB. *)
Module IOStatus.

Inductive Code :=
| kOk | kNotFound | kCorruption | kNotSupported | kInvalidArgument
| kIOError | kMergeInProgress | kIncomplete | kShutdownInProgress
| kTimedOut | kAborted | kBusy | kExpired | kTryAgain.

Inductive SubCode :=
| kNone | kMutexTimeout | kLockTimeout | kLockLimit | kNoSpace
| kDeadlock | kStaleFile | kMemoryLimit | kSpaceLimit | kPathNotFound.

Record t := mk { code : Code; subcode : SubCode; state : string }.

Definition OK : t := mk kOk kNone EmptyString.
Definition IOError (msg : string) : t := mk kIOError kNone msg.
Definition NoSpace (msg : string) : t := mk kIOError kNoSpace msg.
Definition NotSupported (msg : string) : t := mk kNotSupported kNone msg.
Definition Corruption (msg : string) : t := mk kCorruption kNone msg.

Definition ok (s : t) : bool :=
  match code s with kOk => true | _ => false end.
Definition IsIOError (s : t) : bool :=
  match code s with kIOError => true | _ => false end.
Definition IsNotSupported (s : t) : bool :=
  match code s with kNotSupported => true | _ => false end.
Definition IsCorruption (s : t) : bool :=
  match code s with kCorruption => true | _ => false end.
Definition IsNoSpace (s : t) : bool :=
  match code s, subcode s with kIOError, kNoSpace => true | _, _ => false end.

End IOStatus.

(** [Env::WriteLifeTimeHint] of [rocksdb/env.h]. *)
Inductive WriteLifeTimeHint :=
| WLTH_NOT_SET | WLTH_NONE | WLTH_SHORT | WLTH_MEDIUM | WLTH_LONG | WLTH_EXTREME.

(** What a call leaves behind: either it returns, with the lines it wrote
    to [stderr], or an [assert] stopped the program. *)
Inductive outcome (A : Type) :=
| Returned (a : A) (err : list string)
| AssertionFailed (expr : string).
Arguments Returned {A} a err.
Arguments AssertionFailed {A} expr.

(** ** [struct ZoneExtentInfo] *)
Module ZoneExtentInfo.

Record t := mk {
  extent_ : pointer;
  zone_file_ : pointer;
  valid_ : bool;
  length_ : Z;
  start_ : Z;
  zone_ : pointer;
  fname_ : string;
  lt_ : WriteLifeTimeHint;
  level_ : Z
}.

(** The constructor takes [uint64_t length] and stores it in the
    [uint32_t] member. *)
Definition ctor (extent zone_file : pointer) (valid : bool)
    (length start : Z) (zone : pointer) (fname : string)
    (lt : WriteLifeTimeHint) (level : Z) : t :=
  mk extent zone_file valid (uint32_wrap length) start zone fname lt level.

Definition set_valid (e : t) (v : bool) : t :=
  mk (extent_ e) (zone_file_ e) v (length_ e) (start_ e) (zone_ e)
     (fname_ e) (lt_ e) (level_ e).

Definition invalid_extent_msg : string :=
  ("Try to invalidate invalid extent!" ++ newline)%string.

(** [invalidate()].  [ndebug] says whether the translation unit was
    compiled with [NDEBUG], that is, whether [assert] is a no-op. *)
Definition invalidate (ndebug : bool) (e : t) : outcome t :=
  if negb ndebug && (extent_ e =? nullptr)
  then AssertionFailed "extent_ != nullptr"
  else
    let err := if negb (valid_ e) then [invalid_extent_msg] else [] in
    Returned (set_valid e false) err.

(** [n] calls of [invalidate] in a row on the same object. *)
Fixpoint invalidate_times (ndebug : bool) (n : nat) (e : t) : outcome t :=
  match n with
  | O => Returned e []
  | S k =>
      match invalidate ndebug e with
      | AssertionFailed x => AssertionFailed x
      | Returned e' err =>
          match invalidate_times ndebug k e' with
          | AssertionFailed x => AssertionFailed x
          | Returned e'' err' => Returned e'' (err ++ err')
          end
      end
  end.

End ZoneExtentInfo.

(** ** [class GCVictimZone] and its comparator [InvalComp] *)
Module GCVictimZone.
Record t := mk { zone_ : pointer; invalid_bytes_ : Z }.
Definition get_inval_bytes (v : t) : Z := invalid_bytes_ v.
Definition get_zone_ptr (v : t) : pointer := zone_ v.
End GCVictimZone.

Definition InvalComp (a b : GCVictimZone.t) : bool :=
  GCVictimZone.get_inval_bytes a <? GCVictimZone.get_inval_bytes b.

(** ** [class AllocVictimZone] and its comparator [InvalValComp] *)
Module AllocVictimZone.
Record t := mk { zone_ : pointer; invalid_bytes_ : Z; valid_bytes_ : Z }.
Definition get_inval_bytes (v : t) : Z := invalid_bytes_ v.
Definition get_valid_bytes (v : t) : Z := valid_bytes_ v.
Definition get_zone_ptr (v : t) : pointer := zone_ v.
End AllocVictimZone.

Definition InvalValComp (a b : AllocVictimZone.t) : bool :=
  if AllocVictimZone.get_valid_bytes a >? AllocVictimZone.get_valid_bytes b
  then true
  else if AllocVictimZone.get_valid_bytes a =? AllocVictimZone.get_valid_bytes b
  then AllocVictimZone.get_inval_bytes a <? AllocVictimZone.get_inval_bytes b
  else false.

(** ** [std::priority_queue<T, std::vector<T>, Compare>]

    The queues [gc_queue_] and [allocate_queue_] are instances of the
    standard adaptor.  Its contract: [comp a b] reads "[a] is ordered before
    [b]", and [top()] is an element that is ordered before no element of the
    queue; [pop()] removes it.  Which of several equivalent elements is on
    top is left to the implementation, so the contract is a relation
    ([is_top], [pop_order]); [top]/[pop]/[drain] are one executable
    implementation of it over the underlying container. *)
Section PriorityQueue.
Context {T : Type}.
Variable comp : T -> T -> bool.

Definition priority_queue := list T.

Definition pq_empty (q : priority_queue) : bool :=
  match q with [] => true | _ => false end.

Definition pq_push (x : T) (q : priority_queue) : priority_queue := q ++ [x].

(** [is_top q x]: [x] may be returned by [q.top()]. *)
Definition is_top (q : priority_queue) (x : T) : Prop :=
  In x q /\ forall y, In y q -> comp x y = false.

(** [pop_order q l]: emptying [q] by repeated [top()]/[pop()] may yield
    the elements in the order [l]. *)
Inductive pop_order : priority_queue -> list T -> Prop :=
| pop_order_nil : pop_order [] []
| pop_order_cons q x q' l :
    is_top q x -> Permutation q (x :: q') -> pop_order q' l ->
    pop_order q (x :: l).

(** Scan with a running candidate [x]: returns the chosen element and
    the others in container order. *)
Fixpoint extract (x : T) (q : list T) : T * list T :=
  match q with
  | [] => (x, [])
  | y :: q' =>
      if comp x y
      then let (m, r) := extract y q' in (m, x :: r)
      else let (m, r) := extract x q' in (m, y :: r)
  end.

Definition pq_top (q : priority_queue) : option T :=
  match q with
  | [] => None
  | x :: q' => Some (fst (extract x q'))
  end.

Definition pq_pop (q : priority_queue) : priority_queue :=
  match q with
  | [] => []
  | x :: q' => snd (extract x q')
  end.

Fixpoint drain_fuel (fuel : nat) (q : priority_queue) : list T :=
  match fuel with
  | O => []
  | S k =>
      match pq_top q with
      | None => []
      | Some m => m :: drain_fuel k (pq_pop q)
      end
  end.

(** [while (!q.empty()) { out.push_back(q.top()); q.pop(); }] *)
Definition pq_drain (q : priority_queue) : list T :=
  drain_fuel (List.length q) q.

End PriorityQueue.


(** ** [class Zone]

    The mutexes and the [double secondary_lifetime_] carry no information
    the statements below read and are left out of the record. *)
Module Zone.

Record t := mk {
  zone_id_ : Z;
  start_ : Z;
  capacity_ : Z;
  max_capacity_ : Z;
  wp_ : Z;
  open_for_write_ : bool;
  is_append : bool;
  lifetime_ : WriteLifeTimeHint;
  used_capacity_ : Z;
  extent_info_ : list ZoneExtentInfo.t
}.

Definition PushExtentInfo (z : t) (extent_info : ZoneExtentInfo.t) : t :=
  mk (zone_id_ z) (start_ z) (capacity_ z) (max_capacity_ z) (wp_ z)
     (open_for_write_ z) (is_append z) (lifetime_ z) (used_capacity_ z)
     (extent_info_ z ++ [extent_info]).

Definition advance (z : t) (size : Z) : t :=
  mk (zone_id_ z) (start_ z) (capacity_ z - size) (max_capacity_ z)
     (wp_ z + size) (open_for_write_ z) (is_append z) (lifetime_ z)
     (used_capacity_ z) (extent_info_ z).

(** Modelled from the spec: the body of [Zone::Append] (declared in
    [zbd_zenfs.h], defined outside the two headers).  "On success,
    [write_pointer += size], [remaining_capacity -= size].  If size exceeds
    [remaining_capacity], fail with no-space; the zone is left unchanged."
    [device_ok] is the answer of the device adapter to the write; what a
    device failure leaves behind is not described, the model returns the
    I/O error and the zone as it was. *)
Definition Append (device_ok : bool) (z : t) (data : list byte) (size : Z)
  : IOStatus.t * t :=
  if size >? capacity_ z
  then (IOStatus.NoSpace "Not enough capacity for append", z)
  else if device_ok
  then (IOStatus.OK, advance z size)
  else (IOStatus.IOError "Write failed", z).

End Zone.

(** ** [class ZonedBlockDevice]: the two queues and the quota counters *)
Module ZonedBlockDevice.

Record t := mk {
  gc_queue_ : list GCVictimZone.t;
  allocate_queue_ : list AllocVictimZone.t;
  active_io_zones_ : Z;
  open_io_zones_ : Z;
  max_nr_active_io_zones_ : Z;
  max_nr_open_io_zones_ : Z
}.

Definition set_counters (d : t) (active open : Z) : t :=
  mk (gc_queue_ d) (allocate_queue_ d) active open
     (max_nr_active_io_zones_ d) (max_nr_open_io_zones_ d).

Definition within_quota (d : t) : Prop :=
  open_io_zones_ d <= max_nr_open_io_zones_ d /\
  active_io_zones_ d <= max_nr_active_io_zones_ d.

(** Modelled from the spec: the admission test of [AllocateZone]
    (declared in [zbd_zenfs.h], defined outside the two headers): "block
    until [open_io_zones < max_open] and [active_io_zones < max_active]". *)
Definition has_slack (d : t) : bool :=
  (open_io_zones_ d <? max_nr_open_io_zones_ d) &&
  (active_io_zones_ d <? max_nr_active_io_zones_ d).

Inductive admission :=
| Waits
| Granted (d' : t).

(** Modelled from the spec: the effect of [AllocateZone] on the counters,
    one atomic step under [zone_resources_mtx_].  Without slack the caller
    waits on [zone_resources_] and the pool is untouched; with slack the
    selection policy picks a zone ([zone_was_empty] says whether it had no
    data) and the "post-allocation bookkeeping" runs: "increment
    [open_io_zones]; increment [active_io_zones] iff the zone was previously
    empty". *)
Definition AllocateZone (d : t) (zone_was_empty : bool) : admission :=
  if has_slack d
  then Granted (set_counters d
                  (active_io_zones_ d + (if zone_was_empty then 1 else 0))
                  (open_io_zones_ d + 1))
  else Waits.

(** Modelled from the spec: [NotifyIOZoneFull] and [NotifyIOZoneClosed]
    (declared in [zbd_zenfs.h]).  A zone that became full stops counting as
    active, a zone that was closed stops counting as open; both then wake
    the waiters, which in this model re-run [AllocateZone]. *)
Definition NotifyIOZoneFull (d : t) : t :=
  set_counters d (active_io_zones_ d - 1) (open_io_zones_ d).

Definition NotifyIOZoneClosed (d : t) : t :=
  set_counters d (active_io_zones_ d) (open_io_zones_ d - 1).

(** One atomic transition of the counters. *)
Inductive step : t -> t -> Prop :=
| step_allocate d e d' : AllocateZone d e = Granted d' -> step d d'
| step_full d : step d (NotifyIOZoneFull d)
| step_closed d : step d (NotifyIOZoneClosed d).

Inductive reachable (d0 : t) : t -> Prop :=
| reachable_start : reachable d0 d0
| reachable_step d d' : reachable d0 d -> step d d' -> reachable d0 d'.

End ZonedBlockDevice.

(** ** The file-handle shims of [io_zenfs.h] *)

Record FileOptions := { use_direct_reads : bool }.

Record FSReadRequest := {
  req_offset : Z;
  req_len : Z;
  req_result : list byte;
  req_status : IOStatus.t
}.

(** The positioned reads issued to the device so far: (offset, length). *)
Definition read_log := list (Z * Z).

Module ZonedWritableFile.

Record t := mk {
  buffered : bool;
  buffer_sz : Z;
  block_sz : Z;
  buffer_pos : Z;
  wp : Z;
  write_temp : Z;
  zoneFile_ : pointer;
  metadata_writer_ : pointer
}.

Definition use_direct_io (f : t) : bool := negb (buffered f).
Definition IsSyncThreadSafe (f : t) : bool := true.

End ZonedWritableFile.

Module ZonedSequentialFile.

Record t := mk { zoneFile_ : pointer; rp : Z; direct_ : bool }.

Definition ctor (zoneFile : pointer) (file_opts : FileOptions) : t :=
  mk zoneFile 0 (use_direct_reads file_opts).

Definition use_direct_io (f : t) : bool := true.

Definition InvalidateCache (f : t) (offset length : Z) : IOStatus.t :=
  IOStatus.OK.

End ZonedSequentialFile.

Module ZonedRandomAccessFile.

Record t := mk { zoneFile_ : pointer; direct_ : bool }.

Definition ctor (zoneFile : pointer) (file_opts : FileOptions) : t :=
  mk zoneFile (use_direct_reads file_opts).

(** The call touches neither the requests nor the device. *)
Definition MultiRead (f : t) (reqs : list FSReadRequest) (num_reqs : Z)
    (dev : read_log) : IOStatus.t * list FSReadRequest * read_log :=
  (IOStatus.IOError "Not implemented", reqs, dev).

Definition Prefetch (f : t) (offset n : Z) (dev : read_log)
  : IOStatus.t * read_log :=
  (IOStatus.OK, dev).

Definition use_direct_io (f : t) : bool := true.

Definition InvalidateCache (f : t) (offset length : Z) : IOStatus.t :=
  IOStatus.OK.

End ZonedRandomAccessFile.


(** ** Byte-level coding used by the metadata record

    Modelled from the spec: the encoded file metadata record.  The coding
    helpers and the bodies of [ZoneExtent::EncodeTo]/[DecodeFrom] and
    [ZoneFile::EncodeTo]/[DecodeFrom]/[MergeUpdate] are declared in
    [io_zenfs.h] and defined outside the two headers.  The record is a
    "sequence of length-prefixed fields, version-tagged:
    [{ file_id:u64, filename:string, lifetime:u8, file_size:u64,
       smallest_key:bytes, largest_key:bytes, level:i32,
       extents:[ {start:u64, length:u32, zone_id:u32} ] }] ...
    Byte order is little-endian."  Fixed-width fields are written in their
    width; a string, a key and the extent list are preceded by their
    length as a [u32]. *)

Definition byte_of_Z (v : Z) : byte :=
  match Byte.of_N (Z.to_N (v mod 256)) with
  | Some b => b
  | None => x00
  end.

Definition Z_of_byte (b : byte) : Z := Z.of_N (Byte.to_N b).

Notation "'let?' p ':=' a 'in' b" :=
  (match a with Some p => b | None => None end)
  (at level 10, p pattern, a at level 100, b at level 200).

(** [width] bytes, least significant first. *)
Fixpoint PutFixed (width : nat) (v : Z) : list byte :=
  match width with
  | O => []
  | S k => byte_of_Z v :: PutFixed k (v / 256)
  end.

Fixpoint GetFixed (width : nat) (input : list byte) : option (Z * list byte) :=
  match width with
  | O => Some (0, input)
  | S k =>
      match input with
      | [] => None
      | b :: rest =>
          let? (v, rest') := GetFixed k rest in
          Some (Z_of_byte b + 256 * v, rest')
      end
  end.

Definition PutLengthPrefixedSlice (s : list byte) : list byte :=
  PutFixed 4 (Z.of_nat (List.length s)) ++ s.

Definition GetLengthPrefixedSlice (input : list byte)
  : option (list byte * list byte) :=
  let? (n, rest) := GetFixed 4 input in
  if n <=? Z.of_nat (List.length rest)
  then Some (firstn (Z.to_nat n) rest, skipn (Z.to_nat n) rest)
  else None.

Definition lifetime_code (lt : WriteLifeTimeHint) : Z :=
  match lt with
  | WLTH_NOT_SET => 0 | WLTH_NONE => 1 | WLTH_SHORT => 2
  | WLTH_MEDIUM => 3 | WLTH_LONG => 4 | WLTH_EXTREME => 5
  end.

Definition lifetime_of_code (c : Z) : option WriteLifeTimeHint :=
  match c with
  | 0 => Some WLTH_NOT_SET | 1 => Some WLTH_NONE | 2 => Some WLTH_SHORT
  | 3 => Some WLTH_MEDIUM | 4 => Some WLTH_LONG | 5 => Some WLTH_EXTREME
  | _ => None
  end.

(** [i32] as its two's-complement [u32]. *)
Definition int32_bits (v : Z) : Z := v mod 2 ^ 32.
Definition int32_of_bits (u : Z) : Z := if u <? 2 ^ 31 then u else u - 2 ^ 32.

(** ** [class ZoneExtent] *)
Module ZoneExtent.

(** [zone_] is the handle of the owning zone, its [zone_id] in the pool. *)
Record t := mk { start_ : Z; length_ : Z; zone_ : Z }.

Definition representable (e : t) : bool :=
  (0 <=? start_ e) && (start_ e <? 2 ^ 64) &&
  (0 <=? length_ e) && (length_ e <? 2 ^ 32) &&
  (0 <=? zone_ e) && (zone_ e <? 2 ^ 32).

Definition EncodeTo (e : t) (output : list byte) : list byte :=
  output ++ PutFixed 8 (start_ e) ++ PutFixed 4 (length_ e)
         ++ PutFixed 4 (zone_ e).

Definition DecodeFrom (input : list byte) : option (t * list byte) :=
  let? (s, r1) := GetFixed 8 input in
  let? (l, r2) := GetFixed 4 r1 in
  let? (z, r3) := GetFixed 4 r2 in
  Some (mk s l z, r3).

End ZoneExtent.

Fixpoint encode_extents (es : list ZoneExtent.t) : list byte :=
  match es with
  | [] => []
  | e :: es' => ZoneExtent.EncodeTo e [] ++ encode_extents es'
  end.

Fixpoint decode_extents (n : nat) (input : list byte)
  : option (list ZoneExtent.t * list byte) :=
  match n with
  | O => Some ([], input)
  | S k =>
      let? (e, r1) := ZoneExtent.DecodeFrom input in
      let? (es, r2) := decode_extents k r1 in
      Some (e :: es, r2)
  end.


(** ** [class ZoneFile]

    The locks, the condition variable and the buffer queue are left out of
    the record; [smallest_]/[largest_] are the bytes of the [InternalKey]s. *)
Module ZoneFile.

Record t := mk {
  zbd_ : pointer;
  extents_ : list ZoneExtent.t;
  active_zone_ : pointer;
  extent_start_ : Z;
  extent_filepos_ : Z;
  lifetime_ : WriteLifeTimeHint;
  fileSize : Z;
  filename_ : list byte;
  file_id_ : Z;
  nr_synced_extents_ : Z;
  smallest_ : list byte;
  largest_ : list byte;
  level_ : Z;
  is_appending_ : bool;
  marked_for_del_ : bool;
  is_sst_ : bool;
  fno_ : Z
}.

(** The fields the metadata record carries. *)
Record metadata := mk_metadata {
  m_file_id : Z;
  m_filename : list byte;
  m_lifetime : WriteLifeTimeHint;
  m_file_size : Z;
  m_smallest : list byte;
  m_largest : list byte;
  m_level : Z;
  m_extents : list ZoneExtent.t
}.

Definition metadata_of (f : t) : metadata :=
  mk_metadata (file_id_ f) (filename_ f) (lifetime_ f) (fileSize f)
    (smallest_ f) (largest_ f) (level_ f) (extents_ f).

Definition GetID (f : t) : Z := file_id_ f.
Definition GetExtents (f : t) : list ZoneExtent.t := extents_ f.
Definition GetWriteLifeTimeHint (f : t) : WriteLifeTimeHint := lifetime_ f.
Definition GetActiveZone (f : t) : pointer := active_zone_ f.

Definition UpdateExtents (f : t) (a : list ZoneExtent.t) : t :=
  mk (zbd_ f) a (active_zone_ f) (extent_start_ f) (extent_filepos_ f)
     (lifetime_ f) (fileSize f) (filename_ f) (file_id_ f)
     (nr_synced_extents_ f) (smallest_ f) (largest_ f) (level_ f)
     (is_appending_ f) (marked_for_del_ f) (is_sst_ f) (fno_ f).

(** [nr_synced_extents_ = extents_.size()]: a [size_t] stored in a
    [uint32_t]. *)
Definition MetadataSynced (f : t) : t :=
  mk (zbd_ f) (extents_ f) (active_zone_ f) (extent_start_ f)
     (extent_filepos_ f) (lifetime_ f) (fileSize f) (filename_ f)
     (file_id_ f) (uint32_wrap (Z.of_nat (List.length (extents_ f))))
     (smallest_ f) (largest_ f) (level_ f)
     (is_appending_ f) (marked_for_del_ f) (is_sst_ f) (fno_ f).

(** Every field fits the width the record gives it. *)
Definition representable (f : t) : bool :=
  (0 <=? file_id_ f) && (file_id_ f <? 2 ^ 64) &&
  (Z.of_nat (List.length (filename_ f)) <? 2 ^ 32) &&
  (0 <=? fileSize f) && (fileSize f <? 2 ^ 64) &&
  (Z.of_nat (List.length (smallest_ f)) <? 2 ^ 32) &&
  (Z.of_nat (List.length (largest_ f)) <? 2 ^ 32) &&
  (- 2 ^ 31 <=? level_ f) && (level_ f <? 2 ^ 31) &&
  (Z.of_nat (List.length (extents_ f)) <? 2 ^ 32) &&
  forallb ZoneExtent.representable (extents_ f).

(** Modelled from the spec: the constructor
    [ZoneFile(zbd, filename, file_id)], declared in [io_zenfs.h]: a fresh
    in-memory file has no extents, no active zone and size zero. *)
Definition ctor (zbd : pointer) (filename : list byte) (file_id : Z) : t :=
  mk zbd [] nullptr 0 0 WLTH_NOT_SET 0 filename file_id 0 [] [] 0
     false false false 0.

(** Modelled from the spec: the net effect on the metadata of a run of
    successful [Append]/[PushExtent] calls (both declared in [io_zenfs.h]):
    the sealed extents are pushed at the back of [extents_] in append order
    and [file_size] grows by the valid bytes. *)
Definition after_appends (f : t) (added : list ZoneExtent.t)
    (valid_size : Z) : t :=
  mk (zbd_ f) (extents_ f ++ added) (active_zone_ f) (extent_start_ f)
     (extent_filepos_ f) (lifetime_ f) (fileSize f + valid_size)
     (filename_ f) (file_id_ f) (nr_synced_extents_ f)
     (smallest_ f) (largest_ f) (level_ f)
     (is_appending_ f) (marked_for_del_ f) (is_sst_ f) (fno_ f).

Section Codec.

(** The version tag that opens a record; the spec names no value. *)
Variable format_version : Z.

(** Modelled from the spec: [ZoneFile::EncodeTo(output, extent_start)],
    the record of the fields above with the extents from index
    [extent_start] on, appended to [output]. *)
Definition EncodeTo (f : t) (output : list byte) (extent_start : Z)
  : list byte :=
  let es := skipn (Z.to_nat extent_start) (extents_ f) in
  output
    ++ PutFixed 4 format_version
    ++ PutFixed 8 (file_id_ f)
    ++ PutLengthPrefixedSlice (filename_ f)
    ++ PutFixed 1 (lifetime_code (lifetime_ f))
    ++ PutFixed 8 (fileSize f)
    ++ PutLengthPrefixedSlice (smallest_ f)
    ++ PutLengthPrefixedSlice (largest_ f)
    ++ PutFixed 4 (int32_bits (level_ f))
    ++ PutFixed 4 (Z.of_nat (List.length es))
    ++ encode_extents es.

Definition EncodeUpdateTo (f : t) (output : list byte) : list byte :=
  EncodeTo f output (nr_synced_extents_ f).

Definition EncodeSnapshotTo (f : t) (output : list byte) : list byte :=
  EncodeTo f output 0.

(** The reader of one record: the fields and the unread rest. *)
Definition parse_record (input : list byte)
  : option (metadata * list byte) :=
  let? (v, r0) := GetFixed 4 input in
  if negb (v =? format_version) then None else
  let? (id, r1) := GetFixed 8 r0 in
  let? (name, r2) := GetLengthPrefixedSlice r1 in
  let? (lc, r3) := GetFixed 1 r2 in
  let? lt := lifetime_of_code lc in
  let? (sz, r4) := GetFixed 8 r3 in
  let? (sk, r5) := GetLengthPrefixedSlice r4 in
  let? (lk, r6) := GetLengthPrefixedSlice r5 in
  let? (lv, r7) := GetFixed 4 r6 in
  let? (n, r8) := GetFixed 4 r7 in
  let? (es, r9) := decode_extents (Z.to_nat n) r8 in
  Some (mk_metadata id name lt sz sk lk (int32_of_bits lv) es, r9).

(** Modelled from the spec: [ZoneFile::DecodeFrom(input)].  It fills the
    receiver from one record, pushing the decoded extents onto [extents_],
    and advances [input]; an unreadable record is reported as
    corruption and leaves the receiver as it was. *)
Definition DecodeFrom (f : t) (input : list byte)
  : IOStatus.t * t * list byte :=
  match parse_record input with
  | Some (m, rest) =>
      (IOStatus.OK,
       mk (zbd_ f) (extents_ f ++ m_extents m) (active_zone_ f)
          (extent_start_ f) (extent_filepos_ f) (m_lifetime m)
          (m_file_size m) (m_filename m) (m_file_id m)
          (nr_synced_extents_ f) (m_smallest m) (m_largest m) (m_level m)
          (is_appending_ f) (marked_for_del_ f) (is_sst_ f) (fno_ f),
       rest)
  | None => (IOStatus.Corruption "ZoneFile", f, input)
  end.

End Codec.

(** Modelled from the spec: [ZoneFile::MergeUpdate(update)], "replay a
    delta onto an existing in-memory [ZoneFile]; appends new extents and
    updates file-size/keys; fails if [file_id]s differ".  The spec does not
    name the error kind; the model reports corruption. *)
Definition MergeUpdate (f update : t) : IOStatus.t * t :=
  if negb (file_id_ f =? GetID update)
  then (IOStatus.Corruption "ZoneFile update", f)
  else
    (IOStatus.OK,
     mk (zbd_ f) (extents_ f ++ GetExtents update) (active_zone_ f)
        (extent_start_ f) (extent_filepos_ f) (lifetime_ f)
        (fileSize update) (filename_ f) (file_id_ f)
        (nr_synced_extents_ f) (smallest_ update) (largest_ update)
        (level_ f)
        (is_appending_ f) (marked_for_del_ f) (is_sst_ f) (fno_ f)).

End ZoneFile.


(** ** Requirements on a [Compare]

    [std::priority_queue] requires its comparator to be a strict weak
    ordering: irreflexive, transitive, and with a transitive
    "neither is ordered before the other". *)
Definition strict_weak_order {T : Type} (comp : T -> T -> bool) : Prop :=
  (forall a, comp a a = false) /\
  (forall a b c, comp a b = true -> comp b c = true -> comp a c = true) /\
  (forall a b c,
      comp a b = false -> comp b a = false ->
      comp b c = false -> comp c b = false ->
      comp a c = false /\ comp c a = false).

(** A queue in which no two distinct elements are tied. *)
Definition tie_free {T : Type} (comp : T -> T -> bool) (q : list T) : Prop :=
  forall x y, In x q -> In y q ->
    comp x y = false -> comp y x = false -> x = y.

(** The key [InvalValComp] compares: (valid bytes, invalid bytes). *)
Definition alloc_key (z : AllocVictimZone.t) : Z * Z :=
  (AllocVictimZone.get_valid_bytes z, AllocVictimZone.get_inval_bytes z).

(** [PushExtentInfo] called once per element, front to back. *)
Definition PushExtentInfos (z : Zone.t) (infos : list ZoneExtentInfo.t)
  : Zone.t :=
  fold_left Zone.PushExtentInfo infos z.

(* ================================================================== *)
(** * Part II: properties *)
(* ================================================================== *)

(** ** [ZoneExtentInfo::invalidate] *)

Lemma set_valid_same (e : ZoneExtentInfo.t) :
  ZoneExtentInfo.set_valid e (ZoneExtentInfo.valid_ e) = e.
Proof. destruct e; reflexivity. Qed.

Lemma invalidate_returns (ndebug : bool) (e : ZoneExtentInfo.t) :
  ndebug = true \/ ZoneExtentInfo.extent_ e <> nullptr ->
  ZoneExtentInfo.invalidate ndebug e =
  Returned (ZoneExtentInfo.set_valid e false)
           (if negb (ZoneExtentInfo.valid_ e)
            then [ZoneExtentInfo.invalid_extent_msg] else []).
Proof.
  intros H. unfold ZoneExtentInfo.invalidate.
  destruct H as [-> | H]; [reflexivity |].
  apply Z.eqb_neq in H. rewrite H, andb_false_r. reflexivity.
Qed.

Lemma invalidate_aborts_iff (ndebug : bool) (e : ZoneExtentInfo.t) :
  (exists x, ZoneExtentInfo.invalidate ndebug e = AssertionFailed x) <->
  ndebug = false /\ ZoneExtentInfo.extent_ e = nullptr.
Proof.
  unfold ZoneExtentInfo.invalidate. split.
  - intros [x H]. destruct ndebug; simpl in H; [discriminate |].
    destruct (ZoneExtentInfo.extent_ e =? nullptr) eqn:E; [| discriminate].
    apply Z.eqb_eq in E. auto.
  - intros [-> E]. rewrite E. simpl. eexists. reflexivity.
Qed.

Lemma invalidate_clears (ndebug : bool) (e e' : ZoneExtentInfo.t) err :
  ZoneExtentInfo.invalidate ndebug e = Returned e' err ->
  ZoneExtentInfo.valid_ e' = false.
Proof.
  unfold ZoneExtentInfo.invalidate.
  destruct (negb ndebug && _); [discriminate |].
  intros H. injection H as <- _. reflexivity.
Qed.

Lemma invalidate_times_stays_invalid (ndebug : bool) (n : nat) :
  forall e e' err,
    ZoneExtentInfo.valid_ e = false ->
    ZoneExtentInfo.invalidate_times ndebug n e = Returned e' err ->
    ZoneExtentInfo.valid_ e' = false.
Proof.
  induction n as [| n IH]; simpl; intros e e' err Hv H.
  - injection H as <- _. exact Hv.
  - destruct (ZoneExtentInfo.invalidate ndebug e) as [e1 err1 |] eqn:E1;
      [| discriminate].
    destruct (ZoneExtentInfo.invalidate_times ndebug n e1) as [e2 err2 |] eqn:E2;
      [| discriminate].
    injection H as <- _.
    eapply IH; [| exact E2]. eapply invalidate_clears; exact E1.
Qed.

(** C3, as the code has it: a second invalidation does not assert.  For
    every [ZoneExtentInfo] whose [valid_] is already [false], and whose
    extent pointer passes the one assertion there is (it is non-null, or
    assertions are compiled out), [invalidate] writes the line "Try to
    invalidate invalid extent!" to [stderr], leaves the object as it was
    and returns. *)
Theorem invalidate_twice_logs_and_returns
    (ndebug : bool) (e : ZoneExtentInfo.t) :
  ZoneExtentInfo.valid_ e = false ->
  ndebug = true \/ ZoneExtentInfo.extent_ e <> nullptr ->
  ZoneExtentInfo.invalidate ndebug e =
  Returned e [ZoneExtentInfo.invalid_extent_msg].
Proof.
  intros Hv Hp. rewrite (invalidate_returns _ _ Hp), Hv. simpl.
  rewrite <- Hv at 1. rewrite set_valid_same. reflexivity.
Qed.

Lemma invalidate_twice_logs_and_returns_witness :
  ZoneExtentInfo.invalidate false
    (ZoneExtentInfo.ctor 4096 8192 false 65536 0 12288
       "000012.sst" WLTH_MEDIUM 1) =
  Returned
    (ZoneExtentInfo.ctor 4096 8192 false 65536 0 12288
       "000012.sst" WLTH_MEDIUM 1)
    [ZoneExtentInfo.invalid_extent_msg].
Proof.
  apply invalidate_twice_logs_and_returns.
  - reflexivity.
  - right. unfold nullptr. simpl. lia.
Defined.

(** C3, as the claim words it, fails: with assertions compiled in, an
    extent that is already invalid (and has a non-null extent pointer) is
    invalidated again without an assertion failure. *)
Lemma invalidate_twice_no_assertion :
  ZoneExtentInfo.valid_
    (ZoneExtentInfo.mk 4096 8192 false 65536 0 12288
       "000012.sst" WLTH_MEDIUM 1) = false /\
  ZoneExtentInfo.invalidate false
    (ZoneExtentInfo.mk 4096 8192 false 65536 0 12288
       "000012.sst" WLTH_MEDIUM 1) =
  Returned
    (ZoneExtentInfo.mk 4096 8192 false 65536 0 12288
       "000012.sst" WLTH_MEDIUM 1)
    [ZoneExtentInfo.invalid_extent_msg].
Proof. split; reflexivity. Qed.

(** C10: invalidation is absorbing.  Whatever [valid_] was, a call of
    [invalidate] that returns leaves [valid_ = false]; from an invalid
    extent no run of calls brings [valid_] back to [true]; and, with
    assertions compiled in, the call is stopped exactly when the extent
    pointer is null, the flag playing no part in it. *)
Theorem invalidate_absorbing (ndebug : bool) (e : ZoneExtentInfo.t) :
  (forall e' err,
      ZoneExtentInfo.invalidate ndebug e = Returned e' err ->
      ZoneExtentInfo.valid_ e' = false) /\
  (forall n e' e'' err err',
      ZoneExtentInfo.invalidate ndebug e = Returned e' err ->
      ZoneExtentInfo.invalidate_times ndebug n e' = Returned e'' err' ->
      ZoneExtentInfo.valid_ e'' = false) /\
  ((exists x, ZoneExtentInfo.invalidate ndebug e = AssertionFailed x) <->
   ndebug = false /\ ZoneExtentInfo.extent_ e = nullptr) /\
  (ZoneExtentInfo.extent_ e <> nullptr ->
   exists err,
     ZoneExtentInfo.invalidate ndebug e =
     Returned (ZoneExtentInfo.set_valid e false) err).
Proof.
  split; [| split; [| split]].
  - intros e' err. apply invalidate_clears.
  - intros n e' e'' err err' H1 H2.
    eapply invalidate_times_stays_invalid; [| exact H2].
    eapply invalidate_clears; exact H1.
  - apply invalidate_aborts_iff.
  - intros H. eexists. apply invalidate_returns. right. exact H.
Qed.

(** ** Direct I/O and the unsupported calls of the shims *)

(** C4, as the code has it: a sequential reader reports direct I/O as
    required whatever its options asked for; so does a random-access
    reader; a writer reports it exactly when it is unbuffered. *)
Theorem use_direct_io_reported
    (zoneFile : pointer) (file_opts : FileOptions)
    (w : ZonedWritableFile.t) :
  ZonedSequentialFile.use_direct_io
    (ZonedSequentialFile.ctor zoneFile file_opts) = true /\
  ZonedRandomAccessFile.use_direct_io
    (ZonedRandomAccessFile.ctor zoneFile file_opts) = true /\
  ZonedWritableFile.use_direct_io w = negb (ZonedWritableFile.buffered w).
Proof. repeat split. Qed.

(** C4, as the claim words it, fails: a sequential reader built with
    [use_direct_reads = false] still reports direct I/O as required. *)
Lemma sequential_direct_io_ignores_option :
  use_direct_reads {| use_direct_reads := false |} = false /\
  ZonedSequentialFile.direct_
    (ZonedSequentialFile.ctor 4096 {| use_direct_reads := false |}) = false /\
  ZonedSequentialFile.use_direct_io
    (ZonedSequentialFile.ctor 4096 {| use_direct_reads := false |}) = true.
Proof. repeat split. Qed.

(** C5, as the code has it: [MultiRead] issues no read, leaves the
    requests as they were and returns a status of the I/O-error kind whose
    message is "Not implemented"; [Prefetch] returns OK and issues no read
    either. *)
Theorem MultiRead_io_error_Prefetch_ok
    (f : ZonedRandomAccessFile.t) (reqs : list FSReadRequest)
    (num_reqs offset n : Z) (dev : read_log) :
  ZonedRandomAccessFile.MultiRead f reqs num_reqs dev =
    (IOStatus.IOError "Not implemented", reqs, dev) /\
  IOStatus.IsIOError
    (fst (fst (ZonedRandomAccessFile.MultiRead f reqs num_reqs dev))) = true /\
  IOStatus.IsNotSupported
    (fst (fst (ZonedRandomAccessFile.MultiRead f reqs num_reqs dev))) = false /\
  ZonedRandomAccessFile.Prefetch f offset n dev = (IOStatus.OK, dev).
Proof. repeat split. Qed.

(** C5, as the claim words it, fails: the status [MultiRead] returns is
    of the I/O-error kind, not of the not-implemented (not-supported)
    kind. *)
Lemma MultiRead_status_is_io_error :
  IOStatus.code
    (fst (fst (ZonedRandomAccessFile.MultiRead
                 (ZonedRandomAccessFile.ctor 4096 {| use_direct_reads := true |})
                 [] 0 []))) = IOStatus.kIOError /\
  IOStatus.IsNotSupported
    (fst (fst (ZonedRandomAccessFile.MultiRead
                 (ZonedRandomAccessFile.ctor 4096 {| use_direct_reads := true |})
                 [] 0 []))) = false.
Proof. split; reflexivity. Qed.

(** ** [Zone::Append] *)

Lemma Append_fits (z : Zone.t) (data : list byte) (size : Z) :
  size <= Zone.capacity_ z ->
  Zone.Append true z data size = (IOStatus.OK, Zone.advance z size).
Proof.
  intros H. unfold Zone.Append.
  destruct (size >? Zone.capacity_ z) eqn:E; [| reflexivity].
  apply Z.gtb_lt in E. lia.
Qed.

(** C8: an append of more bytes than the zone has left fails with the
    no-space error and returns the zone as it was; in particular the write
    pointer, the remaining capacity, the used capacity and the extent-info
    list are those of before the call. *)
Theorem Append_no_space_leaves_zone
    (device_ok : bool) (z : Zone.t) (data : list byte) (size : Z) :
  size > Zone.capacity_ z ->
  IOStatus.IsNoSpace (fst (Zone.Append device_ok z data size)) = true /\
  IOStatus.ok (fst (Zone.Append device_ok z data size)) = false /\
  snd (Zone.Append device_ok z data size) = z /\
  Zone.wp_ (snd (Zone.Append device_ok z data size)) = Zone.wp_ z /\
  Zone.capacity_ (snd (Zone.Append device_ok z data size)) = Zone.capacity_ z /\
  Zone.used_capacity_ (snd (Zone.Append device_ok z data size)) =
    Zone.used_capacity_ z /\
  Zone.extent_info_ (snd (Zone.Append device_ok z data size)) =
    Zone.extent_info_ z.
Proof.
  intros H. unfold Zone.Append.
  destruct (size >? Zone.capacity_ z) eqn:E.
  - repeat split.
  - rewrite Z.gtb_ltb in E. apply Z.ltb_ge in E. lia.
Qed.

Lemma Append_no_space_leaves_zone_witness :
  IOStatus.IsNoSpace
    (fst (Zone.Append true
            (Zone.mk 7 1835008 4096 262144 2093056 true false WLTH_SHORT
               258048 [])
            [] 8192)) = true /\
  snd (Zone.Append true
         (Zone.mk 7 1835008 4096 262144 2093056 true false WLTH_SHORT
            258048 [])
         [] 8192) =
  Zone.mk 7 1835008 4096 262144 2093056 true false WLTH_SHORT 258048 [].
Proof.
  pose proof (Append_no_space_leaves_zone true
    (Zone.mk 7 1835008 4096 262144 2093056 true false WLTH_SHORT 258048 [])
    [] 8192) as H.
  split; apply H; reflexivity.
Defined.

(** ** The open/active quotas *)

Lemma AllocateZone_waits_iff (d : ZonedBlockDevice.t) (e : bool) :
  ZonedBlockDevice.AllocateZone d e = ZonedBlockDevice.Waits <->
  (ZonedBlockDevice.max_nr_open_io_zones_ d <= ZonedBlockDevice.open_io_zones_ d
   \/ ZonedBlockDevice.max_nr_active_io_zones_ d
      <= ZonedBlockDevice.active_io_zones_ d).
Proof.
  unfold ZonedBlockDevice.AllocateZone, ZonedBlockDevice.has_slack.
  destruct (Z.ltb_spec (ZonedBlockDevice.open_io_zones_ d)
                       (ZonedBlockDevice.max_nr_open_io_zones_ d));
  destruct (Z.ltb_spec (ZonedBlockDevice.active_io_zones_ d)
                       (ZonedBlockDevice.max_nr_active_io_zones_ d));
  simpl; split; intros; try discriminate; try reflexivity; try lia; auto.
Qed.

Lemma AllocateZone_granted_within_quota (d d' : ZonedBlockDevice.t) (e : bool) :
  ZonedBlockDevice.AllocateZone d e = ZonedBlockDevice.Granted d' ->
  ZonedBlockDevice.within_quota d'.
Proof.
  unfold ZonedBlockDevice.AllocateZone, ZonedBlockDevice.has_slack,
    ZonedBlockDevice.within_quota.
  destruct (Z.ltb_spec (ZonedBlockDevice.open_io_zones_ d)
                       (ZonedBlockDevice.max_nr_open_io_zones_ d));
  destruct (Z.ltb_spec (ZonedBlockDevice.active_io_zones_ d)
                       (ZonedBlockDevice.max_nr_active_io_zones_ d));
  simpl; intros E; try discriminate.
  injection E as <-. simpl. destruct e; lia.
Qed.

Lemma step_within_quota (d d' : ZonedBlockDevice.t) :
  ZonedBlockDevice.step d d' ->
  ZonedBlockDevice.within_quota d -> ZonedBlockDevice.within_quota d'.
Proof.
  intros S Q. destruct S as [d e d' G | d | d].
  - eapply AllocateZone_granted_within_quota; exact G.
  - destruct Q. split; simpl; lia.
  - destruct Q. split; simpl; lia.
Qed.

Lemma reachable_within_quota (d0 d : ZonedBlockDevice.t) :
  ZonedBlockDevice.within_quota d0 ->
  ZonedBlockDevice.reachable d0 d ->
  ZonedBlockDevice.within_quota d.
Proof.
  intros Q R. induction R as [| d d' R IH S]; [exact Q |].
  eapply step_within_quota; [exact S | exact IH].
Qed.

Lemma AllocateZone_after_release (d : ZonedBlockDevice.t) (e : bool) :
  ZonedBlockDevice.within_quota d ->
  exists d',
    ZonedBlockDevice.AllocateZone
      (ZonedBlockDevice.NotifyIOZoneClosed (ZonedBlockDevice.NotifyIOZoneFull d))
      e = ZonedBlockDevice.Granted d'.
Proof.
  intros [Qo Qa].
  unfold ZonedBlockDevice.AllocateZone, ZonedBlockDevice.has_slack. simpl.
  destruct (Z.ltb_spec (ZonedBlockDevice.open_io_zones_ d - 1)
                       (ZonedBlockDevice.max_nr_open_io_zones_ d)); [| lia].
  destruct (Z.ltb_spec (ZonedBlockDevice.active_io_zones_ d - 1)
                       (ZonedBlockDevice.max_nr_active_io_zones_ d)); [| lia].
  simpl. eexists. reflexivity.
Qed.

(** C9: from a pool that respects its quotas (the pool at mount, with both
    counters at zero, does), every reachable pool has
    [open_io_zones <= max_open] and [active_io_zones <= max_active];
    [AllocateZone] waits exactly when a counter has no slack and a grant
    never exceeds a quota; and once [NotifyIOZoneFull] and
    [NotifyIOZoneClosed] have run, the waiting allocation is granted. *)
Theorem quotas_never_exceeded (d0 d : ZonedBlockDevice.t) :
  ZonedBlockDevice.within_quota d0 ->
  ZonedBlockDevice.reachable d0 d ->
  ZonedBlockDevice.open_io_zones_ d <= ZonedBlockDevice.max_nr_open_io_zones_ d /\
  ZonedBlockDevice.active_io_zones_ d
    <= ZonedBlockDevice.max_nr_active_io_zones_ d /\
  (forall e,
      ZonedBlockDevice.AllocateZone d e = ZonedBlockDevice.Waits <->
      (ZonedBlockDevice.max_nr_open_io_zones_ d
         <= ZonedBlockDevice.open_io_zones_ d \/
       ZonedBlockDevice.max_nr_active_io_zones_ d
         <= ZonedBlockDevice.active_io_zones_ d)) /\
  (forall e d',
      ZonedBlockDevice.AllocateZone d e = ZonedBlockDevice.Granted d' ->
      ZonedBlockDevice.within_quota d') /\
  (forall e, exists d',
      ZonedBlockDevice.AllocateZone
        (ZonedBlockDevice.NotifyIOZoneClosed
           (ZonedBlockDevice.NotifyIOZoneFull d)) e
      = ZonedBlockDevice.Granted d').
Proof.
  intros Q R. pose proof (reachable_within_quota _ _ Q R) as [Qo Qa].
  split; [exact Qo |]. split; [exact Qa |]. split; [| split].
  - intros e. apply AllocateZone_waits_iff.
  - intros e d'. apply AllocateZone_granted_within_quota.
  - intros e. apply AllocateZone_after_release. split; assumption.
Qed.

Lemma quotas_never_exceeded_witness :
  ZonedBlockDevice.open_io_zones_ (ZonedBlockDevice.mk [] [] 2 2 3 2) <= 2 /\
  ZonedBlockDevice.AllocateZone (ZonedBlockDevice.mk [] [] 2 2 3 2) true
    = ZonedBlockDevice.Waits.
Proof.
  assert (R : ZonedBlockDevice.reachable
                (ZonedBlockDevice.mk [] [] 0 0 3 2)
                (ZonedBlockDevice.mk [] [] 2 2 3 2)).
  { eapply ZonedBlockDevice.reachable_step
      with (d := ZonedBlockDevice.mk [] [] 1 1 3 2).
    - eapply ZonedBlockDevice.reachable_step
        with (d := ZonedBlockDevice.mk [] [] 0 0 3 2).
      + apply ZonedBlockDevice.reachable_start.
      + apply ZonedBlockDevice.step_allocate with (e := true). reflexivity.
    - apply ZonedBlockDevice.step_allocate with (e := true). reflexivity. }
  assert (Q : ZonedBlockDevice.within_quota (ZonedBlockDevice.mk [] [] 0 0 3 2)).
  { split; simpl; lia. }
  pose proof (quotas_never_exceeded _ _ Q R) as (Ho & _ & Hw & _).
  split; [exact Ho |]. apply Hw. left. simpl. lia.
Defined.

(** ** The priority-queue contract *)

Section PriorityQueueFacts.

Context {T : Type}.
Variable comp : T -> T -> bool.

Lemma pop_order_Permutation (q : priority_queue) (l : list T) :
  pop_order comp q l -> Permutation q l.
Proof.
  induction 1 as [| q x q' l _ P _ IH]; [constructor |].
  etransitivity; [exact P |]. constructor. exact IH.
Qed.

(** Whatever is popped earlier is not ordered before what is popped
    later. *)
Lemma pop_order_not_before (q : priority_queue) (l : list T) :
  pop_order comp q l ->
  forall (i j : nat) (a b : T),
    (i < j)%nat -> nth_error l i = Some a -> nth_error l j = Some b ->
    comp a b = false.
Proof.
  induction 1 as [| q x q' l [_ Top] P PO IH]; intros i j a b Lt Ha Hb.
  - destruct i; discriminate.
  - destruct j as [| j]; [lia |]. simpl in Hb.
    destruct i as [| i]; simpl in Ha.
    + injection Ha as <-. apply Top.
      apply Permutation_in with (l := x :: q'); [symmetry; exact P |].
      right. apply Permutation_in with (l := l).
      * symmetry. apply pop_order_Permutation. exact PO.
      * eapply nth_error_In. exact Hb.
    + apply (IH i j); [lia | assumption | assumption].
Qed.

Hypothesis comp_irrefl : forall a, comp a a = false.
Hypothesis comp_trans :
  forall a b c, comp a b = true -> comp b c = true -> comp a c = true.

Lemma comp_asym (a b : T) : comp a b = true -> comp b a = false.
Proof.
  intros H. destruct (comp b a) eqn:E; [| reflexivity].
  rewrite <- (comp_irrefl a). symmetry. eapply comp_trans; eassumption.
Qed.

Lemma extract_spec (q : list T) :
  forall x m r,
    extract comp x q = (m, r) ->
    Permutation (x :: q) (m :: r) /\
    (m = x \/ comp x m = true) /\
    (forall z, In z (x :: q) -> comp m z = false).
Proof.
  induction q as [| y q IH]; intros x m r E; simpl in E.
  - injection E as <- <-. split; [reflexivity |]. split; [left; reflexivity |].
    intros z [<- | []]. apply comp_irrefl.
  - destruct (comp x y) eqn:C.
    + destruct (extract comp y q) as [m' r'] eqn:E'. injection E as <- <-.
      destruct (IH _ _ _ E') as (P & D & Top).
      assert (Dx : comp x m' = true).
      { destruct D as [-> | D]; [exact C |]. eapply comp_trans; eassumption. }
      split; [| split].
      * etransitivity; [apply perm_skip; exact P | apply perm_swap].
      * right. exact Dx.
      * intros z [<- | Hz]; [apply comp_asym; exact Dx | apply Top; exact Hz].
    + destruct (extract comp x q) as [m' r'] eqn:E'. injection E as <- <-.
      destruct (IH _ _ _ E') as (P & D & Top).
      split; [| split].
      * etransitivity; [apply perm_swap |].
        etransitivity; [apply perm_skip; exact P | apply perm_swap].
      * exact D.
      * intros z [<- | [<- | Hz]].
        -- apply Top. left. reflexivity.
        -- destruct D as [-> | D]; [exact C |].
           destruct (comp m' y) eqn:F; [| reflexivity].
           rewrite <- C. symmetry. eapply comp_trans; eassumption.
        -- apply Top. right. exact Hz.
Qed.

Lemma pq_top_is_top (q : priority_queue) (m : T) :
  pq_top comp q = Some m -> is_top comp q m.
Proof.
  destruct q as [| x q]; [discriminate |]. simpl. intros E.
  destruct (extract comp x q) as [m' r] eqn:E'. simpl in E.
  injection E as ->.
  destruct (extract_spec _ _ _ _ E') as (P & _ & Top).
  split; [| exact Top].
  apply Permutation_in with (l := m :: r); [symmetry; exact P | left; reflexivity].
Qed.

Lemma drain_fuel_pop_order (n : nat) :
  forall q, List.length q = n -> pop_order comp q (drain_fuel comp n q).
Proof.
  induction n as [| n IH]; intros q L.
  - destruct q; [constructor | discriminate].
  - destruct q as [| x q]; [discriminate |].
    simpl. destruct (extract comp x q) as [m r] eqn:E. simpl.
    destruct (extract_spec _ _ _ _ E) as (P & _ & Top).
    apply pop_order_cons with (q' := r).
    + split; [| exact Top].
      apply Permutation_in with (l := m :: r);
        [symmetry; exact P | left; reflexivity].
    + exact P.
    + apply IH. apply Permutation_length in P. simpl in P, L. lia.
Qed.

(** Emptying a queue terminates and follows the contract. *)
Lemma pq_drain_pop_order (q : priority_queue) :
  pop_order comp q (pq_drain comp q).
Proof. apply drain_fuel_pop_order. reflexivity. Qed.

End PriorityQueueFacts.

Lemma InvalComp_irrefl (a : GCVictimZone.t) : InvalComp a a = false.
Proof. unfold InvalComp. apply Z.ltb_irrefl. Qed.

Lemma InvalComp_trans (a b c : GCVictimZone.t) :
  InvalComp a b = true -> InvalComp b c = true -> InvalComp a c = true.
Proof. unfold InvalComp. rewrite !Z.ltb_lt. lia. Qed.

Lemma InvalValComp_spec (a b : AllocVictimZone.t) :
  InvalValComp a b = true <->
  AllocVictimZone.valid_bytes_ b < AllocVictimZone.valid_bytes_ a \/
  (AllocVictimZone.valid_bytes_ a = AllocVictimZone.valid_bytes_ b /\
   AllocVictimZone.invalid_bytes_ a < AllocVictimZone.invalid_bytes_ b).
Proof.
  unfold InvalValComp, AllocVictimZone.get_valid_bytes,
    AllocVictimZone.get_inval_bytes.
  destruct (Z.gtb_spec (AllocVictimZone.valid_bytes_ a)
                       (AllocVictimZone.valid_bytes_ b)).
  - split; auto.
  - destruct (Z.eqb_spec (AllocVictimZone.valid_bytes_ a)
                         (AllocVictimZone.valid_bytes_ b)).
    + rewrite Z.ltb_lt. split; [auto | intros [? | [_ ?]]; [lia | assumption]].
    + split; [discriminate | lia].
Qed.

Lemma InvalValComp_irrefl (a : AllocVictimZone.t) : InvalValComp a a = false.
Proof.
  destruct (InvalValComp a a) eqn:E; [| reflexivity].
  apply InvalValComp_spec in E. lia.
Qed.

Lemma InvalValComp_trans (a b c : AllocVictimZone.t) :
  InvalValComp a b = true -> InvalValComp b c = true ->
  InvalValComp a c = true.
Proof. rewrite !InvalValComp_spec. lia. Qed.

(** C2: [gc_queue_] hands out its victims by decreasing invalid bytes.
    In any order in which the queue can be emptied, every queued victim
    comes out, and of two victims the one with strictly more invalid bytes
    comes out first; the victim on top has the most invalid bytes of the
    queue. *)
Theorem gc_queue_most_invalid_first
    (q : list GCVictimZone.t) (l : list GCVictimZone.t) :
  pop_order InvalComp q l ->
  Permutation q l /\
  (forall (i j : nat) (a b : GCVictimZone.t),
      nth_error l i = Some a -> nth_error l j = Some b ->
      GCVictimZone.get_inval_bytes b < GCVictimZone.get_inval_bytes a ->
      (i < j)%nat) /\
  (forall x y : GCVictimZone.t,
      is_top InvalComp q x -> In y q ->
      GCVictimZone.get_inval_bytes y <= GCVictimZone.get_inval_bytes x).
Proof.
  intros PO. split; [apply pop_order_Permutation with (comp := InvalComp); exact PO |].
  split;
    [| intros x y [_ Top] Hy; specialize (Top y Hy); unfold InvalComp in Top;
       apply Z.ltb_ge in Top; exact Top].
  intros i j a b Ha Hb Lt.
  destruct (Nat.lt_trichotomy i j) as [H | [H | H]]; [exact H | |].
  - subst j. rewrite Ha in Hb. injection Hb as <-. lia.
  - pose proof (pop_order_not_before InvalComp q l PO j i b a H Hb Ha) as C.
    unfold InvalComp in C. apply Z.ltb_ge in C. lia.
Qed.

Lemma gc_queue_most_invalid_first_witness :
  Permutation
    [GCVictimZone.mk 11 4096; GCVictimZone.mk 12 65536;
     GCVictimZone.mk 13 8192]
    [GCVictimZone.mk 12 65536; GCVictimZone.mk 13 8192;
     GCVictimZone.mk 11 4096] /\
  (0 < 2)%nat.
Proof.
  pose proof (gc_queue_most_invalid_first
                [GCVictimZone.mk 11 4096; GCVictimZone.mk 12 65536;
                 GCVictimZone.mk 13 8192]
                (pq_drain InvalComp
                   [GCVictimZone.mk 11 4096; GCVictimZone.mk 12 65536;
                    GCVictimZone.mk 13 8192])
                (pq_drain_pop_order InvalComp InvalComp_irrefl
                   InvalComp_trans _)) as (P & H & _).
  split; [exact P |].
  apply (H 0%nat 2%nat (GCVictimZone.mk 12 65536) (GCVictimZone.mk 11 4096)
           eq_refl eq_refl).
  simpl. lia.
Defined.

(** C1, as the code has it: [allocate_queue_] hands out its candidates by
    increasing valid bytes, ties broken by decreasing invalid bytes.  In
    any order in which the queue can be emptied, every queued zone comes
    out; of two zones the one with strictly fewer valid bytes comes out
    first, and of two zones with equal valid bytes the one with strictly
    more invalid bytes comes out first. *)
Theorem allocate_queue_fewest_valid_first
    (q : list AllocVictimZone.t) (l : list AllocVictimZone.t) :
  pop_order InvalValComp q l ->
  Permutation q l /\
  forall (i j : nat) (a b : AllocVictimZone.t),
    nth_error l i = Some a -> nth_error l j = Some b ->
    (AllocVictimZone.get_valid_bytes a < AllocVictimZone.get_valid_bytes b ->
     (i < j)%nat) /\
    (AllocVictimZone.get_valid_bytes a = AllocVictimZone.get_valid_bytes b ->
     AllocVictimZone.get_inval_bytes b < AllocVictimZone.get_inval_bytes a ->
     (i < j)%nat).
Proof.
  intros PO.
  split; [apply pop_order_Permutation with (comp := InvalValComp); exact PO |].
  intros i j a b Ha Hb.
  assert (K : (j < i)%nat -> InvalValComp b a = false).
  { intros H. exact (pop_order_not_before InvalValComp q l PO j i b a H Hb Ha). }
  assert (S : InvalValComp b a = false ->
              ~ (AllocVictimZone.valid_bytes_ a < AllocVictimZone.valid_bytes_ b \/
                 (AllocVictimZone.valid_bytes_ b = AllocVictimZone.valid_bytes_ a /\
                  AllocVictimZone.invalid_bytes_ b <
                  AllocVictimZone.invalid_bytes_ a))).
  { intros F G. apply InvalValComp_spec in G. congruence. }
  unfold AllocVictimZone.get_valid_bytes, AllocVictimZone.get_inval_bytes.
  split.
  - intros Lt. destruct (Nat.lt_trichotomy i j) as [H | [H | H]]; [exact H | |].
    + subst j. rewrite Ha in Hb. injection Hb as <-. lia.
    + exfalso. apply (S (K H)). left. exact Lt.
  - intros Eq Lt.
    destruct (Nat.lt_trichotomy i j) as [H | [H | H]]; [exact H | |].
    + subst j. rewrite Ha in Hb. injection Hb as <-. lia.
    + exfalso. apply (S (K H)). right. split; [symmetry; exact Eq | exact Lt].
Qed.

Lemma allocate_queue_fewest_valid_first_witness :
  Permutation
    [AllocVictimZone.mk 21 0 131072; AllocVictimZone.mk 22 4096 65536;
     AllocVictimZone.mk 23 8192 65536]
    [AllocVictimZone.mk 23 8192 65536; AllocVictimZone.mk 22 4096 65536;
     AllocVictimZone.mk 21 0 131072] /\
  (1 < 2)%nat /\ (0 < 1)%nat.
Proof.
  pose proof (allocate_queue_fewest_valid_first
                [AllocVictimZone.mk 21 0 131072;
                 AllocVictimZone.mk 22 4096 65536;
                 AllocVictimZone.mk 23 8192 65536]
                (pq_drain InvalValComp
                   [AllocVictimZone.mk 21 0 131072;
                    AllocVictimZone.mk 22 4096 65536;
                    AllocVictimZone.mk 23 8192 65536])
                (pq_drain_pop_order InvalValComp InvalValComp_irrefl
                   InvalValComp_trans _)) as [P H].
  split; [exact P |]. split.
  - apply (proj1 (H 1%nat 2%nat (AllocVictimZone.mk 22 4096 65536)
                    (AllocVictimZone.mk 21 0 131072) eq_refl eq_refl)).
    simpl. lia.
  - apply (proj2 (H 0%nat 1%nat (AllocVictimZone.mk 23 8192 65536)
                    (AllocVictimZone.mk 22 4096 65536) eq_refl eq_refl));
      [reflexivity | simpl; lia].
Defined.

(** C1, as the claim words it, fails: with a zone of 131072 valid bytes
    and a zone of 65536 valid bytes queued, the zone on top, and the first
    to be dequeued, is the one with fewer valid bytes. *)
Lemma allocate_queue_most_valid_not_first :
  pq_top InvalValComp
    (pq_push (AllocVictimZone.mk 22 4096 65536)
       (pq_push (AllocVictimZone.mk 21 0 131072) []))
  = Some (AllocVictimZone.mk 22 4096 65536) /\
  pq_drain InvalValComp
    (pq_push (AllocVictimZone.mk 22 4096 65536)
       (pq_push (AllocVictimZone.mk 21 0 131072) []))
  = [AllocVictimZone.mk 22 4096 65536; AllocVictimZone.mk 21 0 131072] /\
  is_top InvalValComp
    (pq_push (AllocVictimZone.mk 22 4096 65536)
       (pq_push (AllocVictimZone.mk 21 0 131072) []))
    (AllocVictimZone.mk 22 4096 65536) /\
  ~ is_top InvalValComp
    (pq_push (AllocVictimZone.mk 22 4096 65536)
       (pq_push (AllocVictimZone.mk 21 0 131072) []))
    (AllocVictimZone.mk 21 0 131072) /\
  AllocVictimZone.get_valid_bytes (AllocVictimZone.mk 22 4096 65536)
  < AllocVictimZone.get_valid_bytes (AllocVictimZone.mk 21 0 131072).
Proof.
  split; [reflexivity |]. split; [reflexivity |]. split; [| split].
  - split; [right; left; reflexivity |].
    intros y [<- | [<- | []]]; reflexivity.
  - intros [_ Top].
    specialize (Top (AllocVictimZone.mk 22 4096 65536)
                    (or_intror (or_introl eq_refl))).
    discriminate Top.
  - reflexivity.
Qed.

(** ** The metadata record: coding lemmas *)

Lemma Z_of_byte_of_Z (v : Z) : Z_of_byte (byte_of_Z v) = v mod 256.
Proof.
  unfold Z_of_byte, byte_of_Z.
  pose proof (Z.mod_pos_bound v 256 ltac:(lia)) as B.
  destruct (Byte.of_N (Z.to_N (v mod 256))) as [b |] eqn:E.
  - apply Byte.to_of_N in E. rewrite E. lia.
  - apply Byte.of_N_None_iff in E. lia.
Qed.

Lemma GetFixed_PutFixed (width : nat) :
  forall (v : Z) (rest : list byte),
    0 <= v < 256 ^ Z.of_nat width ->
    GetFixed width (PutFixed width v ++ rest) = Some (v, rest).
Proof.
  induction width as [| k IH]; intros v rest B.
  - simpl in *. replace v with 0 by lia. reflexivity.
  - rewrite Nat2Z.inj_succ, Z.pow_succ_r in B by lia.
    cbn [PutFixed GetFixed app].
    rewrite IH.
    + rewrite Z_of_byte_of_Z. f_equal. f_equal.
      pose proof (Z.div_mod v 256 ltac:(lia)). lia.
    + split.
      * apply Z.div_pos; lia.
      * apply Z.div_lt_upper_bound; lia.
Qed.

Lemma GetFixed1_PutFixed1 (v : Z) (rest : list byte) :
  0 <= v < 2 ^ 8 -> GetFixed 1 (PutFixed 1 v ++ rest) = Some (v, rest).
Proof. intros B. apply GetFixed_PutFixed. exact B. Qed.

Lemma GetFixed4_PutFixed4 (v : Z) (rest : list byte) :
  0 <= v < 2 ^ 32 -> GetFixed 4 (PutFixed 4 v ++ rest) = Some (v, rest).
Proof. intros B. apply GetFixed_PutFixed. exact B. Qed.

Lemma GetFixed8_PutFixed8 (v : Z) (rest : list byte) :
  0 <= v < 2 ^ 64 -> GetFixed 8 (PutFixed 8 v ++ rest) = Some (v, rest).
Proof. intros B. apply GetFixed_PutFixed. exact B. Qed.

Lemma firstn_length_app {A : Type} (s rest : list A) :
  firstn (List.length s) (s ++ rest) = s.
Proof. induction s as [| a s IH]; simpl; [destruct rest |]; congruence. Qed.

Lemma skipn_length_app {A : Type} (s rest : list A) :
  skipn (List.length s) (s ++ rest) = rest.
Proof. induction s as [| a s IH]; simpl; [reflexivity | exact IH]. Qed.

Lemma GetLengthPrefixedSlice_Put (s rest : list byte) :
  Z.of_nat (List.length s) < 2 ^ 32 ->
  GetLengthPrefixedSlice (PutLengthPrefixedSlice s ++ rest) = Some (s, rest).
Proof.
  intros B. unfold GetLengthPrefixedSlice, PutLengthPrefixedSlice.
  rewrite <- app_assoc, GetFixed4_PutFixed4 by lia.
  rewrite length_app, Nat2Z.id, firstn_length_app, skipn_length_app.
  destruct (Z.leb_spec (Z.of_nat (List.length s))
              (Z.of_nat (List.length s + List.length rest))); [reflexivity | lia].
Qed.

Lemma lifetime_of_code_code (lt : WriteLifeTimeHint) :
  lifetime_of_code (lifetime_code lt) = Some lt.
Proof. destruct lt; reflexivity. Qed.

Lemma lifetime_code_u8 (lt : WriteLifeTimeHint) : 0 <= lifetime_code lt < 2 ^ 8.
Proof. destruct lt; simpl; lia. Qed.

Lemma int32_bits_u32 (v : Z) : 0 <= int32_bits v < 2 ^ 32.
Proof. unfold int32_bits. apply Z.mod_pos_bound. lia. Qed.

Lemma int32_of_bits_bits (v : Z) :
  - 2 ^ 31 <= v < 2 ^ 31 -> int32_of_bits (int32_bits v) = v.
Proof.
  intros B. unfold int32_of_bits, int32_bits.
  destruct (Z.ltb_spec (v mod 2 ^ 32) (2 ^ 31)) as [L | L].
  - destruct (Z.lt_ge_cases v 0) as [N | N].
    + rewrite <- (Z.mod_add v 1 (2 ^ 32)) in L by lia.
      rewrite Z.mod_small in L by lia. lia.
    + apply Z.mod_small. lia.
  - destruct (Z.lt_ge_cases v 0) as [N | N].
    + rewrite <- (Z.mod_add v 1 (2 ^ 32)) by lia.
      rewrite Z.mod_small by lia. lia.
    + rewrite Z.mod_small in L by lia. lia.
Qed.

Lemma ZoneExtent_representable_bounds (e : ZoneExtent.t) :
  ZoneExtent.representable e = true ->
  0 <= ZoneExtent.start_ e < 2 ^ 64 /\
  0 <= ZoneExtent.length_ e < 2 ^ 32 /\
  0 <= ZoneExtent.zone_ e < 2 ^ 32.
Proof.
  unfold ZoneExtent.representable. rewrite !andb_true_iff.
  rewrite !Z.leb_le, !Z.ltb_lt. lia.
Qed.

Lemma ZoneExtent_DecodeFrom_EncodeTo (e : ZoneExtent.t) (rest : list byte) :
  ZoneExtent.representable e = true ->
  ZoneExtent.DecodeFrom (ZoneExtent.EncodeTo e [] ++ rest) = Some (e, rest).
Proof.
  intros R. apply ZoneExtent_representable_bounds in R as (Bs & Bl & Bz).
  unfold ZoneExtent.DecodeFrom, ZoneExtent.EncodeTo.
  rewrite app_nil_l, <- !app_assoc.
  rewrite GetFixed8_PutFixed8 by exact Bs.
  rewrite GetFixed4_PutFixed4 by exact Bl.
  rewrite GetFixed4_PutFixed4 by exact Bz.
  destruct e; reflexivity.
Qed.

Lemma decode_extents_encode_extents (es : list ZoneExtent.t) :
  forall rest,
    forallb ZoneExtent.representable es = true ->
    decode_extents (List.length es) (encode_extents es ++ rest)
    = Some (es, rest).
Proof.
  induction es as [| e es IH]; intros rest R; [reflexivity |].
  simpl in R. apply andb_true_iff in R as [Re Res].
  cbn [List.length encode_extents decode_extents].
  rewrite <- app_assoc, ZoneExtent_DecodeFrom_EncodeTo by exact Re.
  rewrite IH by exact Res. reflexivity.
Qed.

Lemma forallb_skipn {A : Type} (p : A -> bool) (n : nat) (l : list A) :
  forallb p l = true -> forallb p (skipn n l) = true.
Proof.
  revert l. induction n as [| n IH]; intros l H; [exact H |].
  destruct l as [| a l]; [reflexivity |]. simpl in *.
  apply andb_true_iff in H as [_ H]. apply IH. exact H.
Qed.

Lemma ZoneFile_representable_bounds (f : ZoneFile.t) :
  ZoneFile.representable f = true ->
  0 <= ZoneFile.file_id_ f < 2 ^ 64 /\
  Z.of_nat (List.length (ZoneFile.filename_ f)) < 2 ^ 32 /\
  0 <= ZoneFile.fileSize f < 2 ^ 64 /\
  Z.of_nat (List.length (ZoneFile.smallest_ f)) < 2 ^ 32 /\
  Z.of_nat (List.length (ZoneFile.largest_ f)) < 2 ^ 32 /\
  - 2 ^ 31 <= ZoneFile.level_ f < 2 ^ 31 /\
  Z.of_nat (List.length (ZoneFile.extents_ f)) < 2 ^ 32 /\
  forallb ZoneExtent.representable (ZoneFile.extents_ f) = true.
Proof.
  unfold ZoneFile.representable. rewrite !andb_true_iff.
  rewrite !Z.leb_le, !Z.ltb_lt. intuition lia.
Qed.

Lemma MetadataSynced_nr_synced (f : ZoneFile.t) :
  Z.of_nat (List.length (ZoneFile.extents_ f)) < 2 ^ 32 ->
  ZoneFile.nr_synced_extents_ (ZoneFile.MetadataSynced f)
  = Z.of_nat (List.length (ZoneFile.extents_ f)).
Proof.
  intros B. cbn [ZoneFile.MetadataSynced ZoneFile.nr_synced_extents_].
  unfold uint32_wrap. apply Z.mod_small. lia.
Qed.

Section CodecFacts.

Variable format_version : Z.
Hypothesis format_version_u32 : 0 <= format_version < 2 ^ 32.

Lemma parse_record_EncodeTo
    (f : ZoneFile.t) (extent_start : Z) (rest : list byte) :
  ZoneFile.representable f = true ->
  ZoneFile.parse_record format_version
    (ZoneFile.EncodeTo format_version f [] extent_start ++ rest)
  = Some (ZoneFile.mk_metadata
            (ZoneFile.file_id_ f) (ZoneFile.filename_ f)
            (ZoneFile.lifetime_ f) (ZoneFile.fileSize f)
            (ZoneFile.smallest_ f) (ZoneFile.largest_ f)
            (ZoneFile.level_ f)
            (skipn (Z.to_nat extent_start) (ZoneFile.extents_ f)),
          rest).
Proof.
  intros R.
  apply ZoneFile_representable_bounds in R
    as (Bid & Bname & Bsize & Bsk & Blk & Blevel & Bn & Bes).
  unfold ZoneFile.parse_record, ZoneFile.EncodeTo.
  set (es := skipn (Z.to_nat extent_start) (ZoneFile.extents_ f)).
  assert (Bes' : forallb ZoneExtent.representable es = true)
    by (apply forallb_skipn; exact Bes).
  assert (Bn' : 0 <= Z.of_nat (List.length es) < 2 ^ 32).
  { subst es. rewrite length_skipn. lia. }
  rewrite app_nil_l, <- !app_assoc.
  rewrite GetFixed4_PutFixed4 by exact format_version_u32.
  rewrite Z.eqb_refl. cbn [negb].
  rewrite GetFixed8_PutFixed8 by exact Bid.
  rewrite GetLengthPrefixedSlice_Put by exact Bname.
  rewrite GetFixed1_PutFixed1 by apply lifetime_code_u8.
  rewrite lifetime_of_code_code.
  rewrite GetFixed8_PutFixed8 by exact Bsize.
  rewrite GetLengthPrefixedSlice_Put by exact Bsk.
  rewrite GetLengthPrefixedSlice_Put by exact Blk.
  rewrite GetFixed4_PutFixed4 by apply int32_bits_u32.
  rewrite GetFixed4_PutFixed4 by exact Bn'.
  rewrite Nat2Z.id, decode_extents_encode_extents by exact Bes'.
  rewrite int32_of_bits_bits by exact Blevel.
  reflexivity.
Qed.

(** Decoding, into a fresh file, what [EncodeTo] wrote from index
    [extent_start]. *)
Lemma DecodeFrom_EncodeTo
    (f : ZoneFile.t) (extent_start : Z)
    (zbd : pointer) (name : list byte) (id : Z) :
  ZoneFile.representable f = true ->
  exists g,
    ZoneFile.DecodeFrom format_version (ZoneFile.ctor zbd name id)
      (ZoneFile.EncodeTo format_version f [] extent_start)
    = (IOStatus.OK, g, []) /\
    ZoneFile.metadata_of g
    = ZoneFile.mk_metadata
        (ZoneFile.file_id_ f) (ZoneFile.filename_ f)
        (ZoneFile.lifetime_ f) (ZoneFile.fileSize f)
        (ZoneFile.smallest_ f) (ZoneFile.largest_ f)
        (ZoneFile.level_ f)
        (skipn (Z.to_nat extent_start) (ZoneFile.extents_ f)).
Proof.
  intros R. unfold ZoneFile.DecodeFrom.
  pose proof (parse_record_EncodeTo f extent_start [] R) as P.
  rewrite app_nil_r in P. rewrite P.
  eexists. split; reflexivity.
Qed.

End CodecFacts.

(** ** Delta, snapshot and merge *)

(** C6: the delta encoding is [EncodeTo] from index [nr_synced_extents_]
    and carries exactly the extents of index at least [nr_synced_extents_];
    the snapshot encoding is [EncodeTo] from index 0 and carries them all;
    [MetadataSynced] sets [nr_synced_extents_] to the length of the extent
    list; and right after [MetadataSynced] the delta carries no extent.
    What an encoding carries is what a fresh file reads back from it. *)
Theorem delta_carries_unsynced_extents
    (format_version : Z) (f : ZoneFile.t)
    (zbd : pointer) (name : list byte) (id : Z) :
  0 <= format_version < 2 ^ 32 ->
  ZoneFile.representable f = true ->
  (forall output,
      ZoneFile.EncodeUpdateTo format_version f output
      = ZoneFile.EncodeTo format_version f output
          (ZoneFile.nr_synced_extents_ f)) /\
  (forall output,
      ZoneFile.EncodeSnapshotTo format_version f output
      = ZoneFile.EncodeTo format_version f output 0) /\
  (exists u,
      ZoneFile.DecodeFrom format_version (ZoneFile.ctor zbd name id)
        (ZoneFile.EncodeUpdateTo format_version f [])
      = (IOStatus.OK, u, []) /\
      ZoneFile.extents_ u
      = skipn (Z.to_nat (ZoneFile.nr_synced_extents_ f))
          (ZoneFile.extents_ f)) /\
  (exists s,
      ZoneFile.DecodeFrom format_version (ZoneFile.ctor zbd name id)
        (ZoneFile.EncodeSnapshotTo format_version f [])
      = (IOStatus.OK, s, []) /\
      ZoneFile.extents_ s = ZoneFile.extents_ f) /\
  ZoneFile.nr_synced_extents_ (ZoneFile.MetadataSynced f)
    = Z.of_nat (List.length (ZoneFile.extents_ f)) /\
  (exists u,
      ZoneFile.DecodeFrom format_version (ZoneFile.ctor zbd name id)
        (ZoneFile.EncodeUpdateTo format_version (ZoneFile.MetadataSynced f) [])
      = (IOStatus.OK, u, []) /\
      ZoneFile.extents_ u = []).
Proof.
  intros V R.
  pose proof (ZoneFile_representable_bounds f R) as (_ & _ & _ & _ & _ & _ & Bn & _).
  split; [reflexivity |]. split; [reflexivity |]. split; [| split; [| split]].
  - destruct (DecodeFrom_EncodeTo format_version V f
                (ZoneFile.nr_synced_extents_ f) zbd name id R) as (u & E & M).
    exists u. split; [exact E |].
    apply (f_equal ZoneFile.m_extents) in M. exact M.
  - destruct (DecodeFrom_EncodeTo format_version V f 0 zbd name id R)
      as (s & E & M).
    exists s. split; [exact E |].
    apply (f_equal ZoneFile.m_extents) in M. exact M.
  - apply MetadataSynced_nr_synced. exact Bn.
  - assert (R' : ZoneFile.representable (ZoneFile.MetadataSynced f) = true)
      by exact R.
    destruct (DecodeFrom_EncodeTo format_version V (ZoneFile.MetadataSynced f)
                (ZoneFile.nr_synced_extents_ (ZoneFile.MetadataSynced f))
                zbd name id R') as (u & E & M).
    exists u. split; [exact E |].
    apply (f_equal ZoneFile.m_extents) in M.
    etransitivity; [exact M |]. cbn [ZoneFile.m_extents].
    rewrite MetadataSynced_nr_synced, Nat2Z.id by exact Bn.
    exact (skipn_all (ZoneFile.extents_ f)).
Qed.

Lemma delta_carries_unsynced_extents_witness :
  exists u,
    ZoneFile.DecodeFrom 1 (ZoneFile.ctor 4096 [] 0)
      (ZoneFile.EncodeUpdateTo 1
         (ZoneFile.mk 4096
            [ZoneExtent.mk 1048576 65536 4; ZoneExtent.mk 2097152 32768 8;
             ZoneExtent.mk 2129920 4096 8]
            nullptr 0 0 WLTH_MEDIUM 102400
            (list_byte_of_string "000012.sst") 12 1
            (list_byte_of_string "a") (list_byte_of_string "m") 1
            false false true 12)
         [])
    = (IOStatus.OK, u, []) /\
    ZoneFile.extents_ u
    = [ZoneExtent.mk 2097152 32768 8; ZoneExtent.mk 2129920 4096 8].
Proof.
  pose proof
    (delta_carries_unsynced_extents 1
       (ZoneFile.mk 4096
          [ZoneExtent.mk 1048576 65536 4; ZoneExtent.mk 2097152 32768 8;
           ZoneExtent.mk 2129920 4096 8]
          nullptr 0 0 WLTH_MEDIUM 102400
          (list_byte_of_string "000012.sst") 12 1
          (list_byte_of_string "a") (list_byte_of_string "m") 1
          false false true 12)
       4096 [] 0 ltac:(lia) eq_refl) as (_ & _ & H & _).
  exact H.
Defined.

Lemma MergeUpdate_id_mismatch (f update : ZoneFile.t) :
  ZoneFile.file_id_ f <> ZoneFile.file_id_ update ->
  ZoneFile.MergeUpdate f update
  = (IOStatus.Corruption "ZoneFile update", f).
Proof.
  intros H. unfold ZoneFile.MergeUpdate, ZoneFile.GetID.
  apply Z.eqb_neq in H. rewrite H. reflexivity.
Qed.

Lemma MergeUpdate_same_id (f update : ZoneFile.t) :
  ZoneFile.file_id_ f = ZoneFile.file_id_ update ->
  exists g,
    ZoneFile.MergeUpdate f update = (IOStatus.OK, g) /\
    ZoneFile.metadata_of g
    = ZoneFile.mk_metadata
        (ZoneFile.file_id_ f) (ZoneFile.filename_ f) (ZoneFile.lifetime_ f)
        (ZoneFile.fileSize update)
        (ZoneFile.smallest_ update) (ZoneFile.largest_ update)
        (ZoneFile.level_ f)
        (ZoneFile.extents_ f ++ ZoneFile.extents_ update).
Proof.
  intros H. unfold ZoneFile.MergeUpdate, ZoneFile.GetID.
  apply Z.eqb_eq in H. rewrite H. cbn [negb].
  eexists. split; reflexivity.
Qed.

(** C7: the metadata round trip.  Decoding the snapshot of a file into a
    fresh file gives the same [file_id], name, lifetime, size, keys, level
    and extent list.  If the file is synced after the snapshot and then
    appended to, decoding the snapshot, decoding the delta taken after the
    appends and merging the second into the first with [MergeUpdate] gives
    the same metadata as decoding one snapshot taken after the appends,
    which is the metadata of the file.  [MergeUpdate] fails, leaving the
    receiver as it was, when the two [file_id]s differ. *)
Theorem metadata_round_trip
    (format_version : Z) (f : ZoneFile.t)
    (added : list ZoneExtent.t) (valid_size : Z)
    (zbd : pointer) (name : list byte) (id : Z) :
  0 <= format_version < 2 ^ 32 ->
  ZoneFile.representable f = true ->
  ZoneFile.representable
    (ZoneFile.after_appends (ZoneFile.MetadataSynced f) added valid_size)
  = true ->
  (exists g,
      ZoneFile.DecodeFrom format_version (ZoneFile.ctor zbd name id)
        (ZoneFile.EncodeSnapshotTo format_version f [])
      = (IOStatus.OK, g, []) /\
      ZoneFile.metadata_of g = ZoneFile.metadata_of f) /\
  (exists g0 u g1 g',
      ZoneFile.DecodeFrom format_version (ZoneFile.ctor zbd name id)
        (ZoneFile.EncodeSnapshotTo format_version f [])
      = (IOStatus.OK, g0, []) /\
      ZoneFile.DecodeFrom format_version (ZoneFile.ctor zbd name id)
        (ZoneFile.EncodeUpdateTo format_version
           (ZoneFile.after_appends (ZoneFile.MetadataSynced f) added valid_size)
           [])
      = (IOStatus.OK, u, []) /\
      ZoneFile.MergeUpdate g0 u = (IOStatus.OK, g1) /\
      ZoneFile.DecodeFrom format_version (ZoneFile.ctor zbd name id)
        (ZoneFile.EncodeSnapshotTo format_version
           (ZoneFile.after_appends (ZoneFile.MetadataSynced f) added valid_size)
           [])
      = (IOStatus.OK, g', []) /\
      ZoneFile.metadata_of g1 = ZoneFile.metadata_of g' /\
      ZoneFile.metadata_of g'
      = ZoneFile.metadata_of
          (ZoneFile.after_appends (ZoneFile.MetadataSynced f) added valid_size)) /\
  (forall a b,
      ZoneFile.file_id_ a <> ZoneFile.file_id_ b ->
      IOStatus.ok (fst (ZoneFile.MergeUpdate a b)) = false /\
      snd (ZoneFile.MergeUpdate a b) = a).
Proof.
  intros V R R1.
  pose proof (ZoneFile_representable_bounds f R)
    as (_ & _ & _ & _ & _ & _ & Bn & _).
  destruct (DecodeFrom_EncodeTo format_version V f 0 zbd name id R)
    as (g0 & E0 & M0).
  split; [| split].
  - exists g0. split; [exact E0 | exact M0].
  - set (f1 := ZoneFile.after_appends (ZoneFile.MetadataSynced f) added
                 valid_size) in *.
    destruct (DecodeFrom_EncodeTo format_version V f1
                (ZoneFile.nr_synced_extents_ f1) zbd name id R1)
      as (u & Eu & Mu).
    destruct (DecodeFrom_EncodeTo format_version V f1 0 zbd name id R1)
      as (g' & E' & M').
    assert (S : skipn (Z.to_nat (ZoneFile.nr_synced_extents_ f1))
                  (ZoneFile.extents_ f1) = added).
    { subst f1. cbn [ZoneFile.after_appends ZoneFile.nr_synced_extents_
                     ZoneFile.extents_ ZoneFile.MetadataSynced].
      unfold uint32_wrap. rewrite Z.mod_small, Nat2Z.id by lia.
      apply skipn_length_app. }
    rewrite S in Mu.
    unfold ZoneFile.metadata_of in M0, Mu.
    injection M0 as I0 N0 L0 S0 K0 G0 V0 X0.
    injection Mu as Iu Nu Lu Su Ku Gu Vu Xu.
    assert (Same : ZoneFile.file_id_ g0 = ZoneFile.file_id_ u).
    { rewrite I0, Iu. reflexivity. }
    destruct (MergeUpdate_same_id g0 u Same) as (g1 & Em & Mm).
    exists g0, u, g1, g'.
    split; [exact E0 |]. split; [exact Eu |].
    split; [exact Em |]. split; [exact E' |].
    split; [| exact M'].
    rewrite Mm, M', I0, N0, L0, Su, Ku, Gu, V0, X0, Xu.
    subst f1. reflexivity.
  - intros a b H. rewrite (MergeUpdate_id_mismatch a b H).
    split; reflexivity.
Qed.

Lemma metadata_round_trip_witness :
  exists g,
    ZoneFile.DecodeFrom 1 (ZoneFile.ctor 4096 [] 0)
      (ZoneFile.EncodeSnapshotTo 1
         (ZoneFile.mk 4096
            [ZoneExtent.mk 1048576 65536 4; ZoneExtent.mk 2097152 32768 8]
            nullptr 0 0 WLTH_MEDIUM 98304
            (list_byte_of_string "000012.sst") 12 0
            (list_byte_of_string "a") (list_byte_of_string "m") 1
            false false true 12)
         [])
    = (IOStatus.OK, g, []) /\
    ZoneFile.metadata_of g
    = ZoneFile.metadata_of
        (ZoneFile.mk 4096
           [ZoneExtent.mk 1048576 65536 4; ZoneExtent.mk 2097152 32768 8]
           nullptr 0 0 WLTH_MEDIUM 98304
           (list_byte_of_string "000012.sst") 12 0
           (list_byte_of_string "a") (list_byte_of_string "m") 1
           false false true 12).
Proof.
  pose proof
    (metadata_round_trip 1
       (ZoneFile.mk 4096
          [ZoneExtent.mk 1048576 65536 4; ZoneExtent.mk 2097152 32768 8]
          nullptr 0 0 WLTH_MEDIUM 98304
          (list_byte_of_string "000012.sst") 12 0
          (list_byte_of_string "a") (list_byte_of_string "m") 1
          false false true 12)
       [ZoneExtent.mk 2129920 4096 8; ZoneExtent.mk 3145728 8192 12;
        ZoneExtent.mk 3153920 4096 12]
       16384 4096 [] 0 ltac:(lia) eq_refl eq_refl) as (H & _).
  exact H.
Defined.

(** The delta/snapshot scenario run on the model: two extents, sync,
    three more; the delta read back holds the three new extents and the
    merge holds all five and the new size. *)
Example delta_then_merge_five_extents :
  let f0 :=
    ZoneFile.mk 4096
      [ZoneExtent.mk 1048576 65536 4; ZoneExtent.mk 2097152 32768 8]
      nullptr 0 0 WLTH_MEDIUM 98304
      (list_byte_of_string "000012.sst") 12 0
      (list_byte_of_string "a") (list_byte_of_string "m") 1
      false false true 12 in
  let f1 :=
    ZoneFile.after_appends (ZoneFile.MetadataSynced f0)
      [ZoneExtent.mk 2129920 4096 8; ZoneExtent.mk 3145728 8192 12;
       ZoneExtent.mk 3153920 4096 12] 16384 in
  let g0 :=
    snd (fst (ZoneFile.DecodeFrom 1 (ZoneFile.ctor 4096 [] 0)
                (ZoneFile.EncodeSnapshotTo 1 f0 []))) in
  let u :=
    snd (fst (ZoneFile.DecodeFrom 1 (ZoneFile.ctor 4096 [] 0)
                (ZoneFile.EncodeUpdateTo 1 f1 []))) in
  List.length (ZoneFile.extents_ u) = 3%nat /\
  ZoneFile.extents_ (snd (ZoneFile.MergeUpdate g0 u)) = ZoneFile.extents_ f1 /\
  List.length (ZoneFile.extents_ (snd (ZoneFile.MergeUpdate g0 u))) = 5%nat /\
  ZoneFile.fileSize (snd (ZoneFile.MergeUpdate g0 u)) = 114688.
Proof. vm_compute. repeat split. Qed.

(* ================================================================== *)
(** * Part III: further properties of the two headers *)
(* ================================================================== *)

(** ** The comparators as orderings *)

(** X1: [InvalComp] is a strict weak ordering, as [std::priority_queue]
    requires of its comparator. *)
Theorem InvalComp_strict_weak_order : strict_weak_order InvalComp.
Proof.
  split; [exact InvalComp_irrefl |]. split; [exact InvalComp_trans |].
  unfold InvalComp. intros a b c. rewrite !Z.ltb_ge. lia.
Qed.

Lemma InvalValComp_false (a b : AllocVictimZone.t) :
  InvalValComp a b = false <->
  AllocVictimZone.valid_bytes_ a < AllocVictimZone.valid_bytes_ b \/
  (AllocVictimZone.valid_bytes_ a = AllocVictimZone.valid_bytes_ b /\
   AllocVictimZone.invalid_bytes_ b <= AllocVictimZone.invalid_bytes_ a).
Proof.
  destruct (InvalValComp a b) eqn:E.
  - apply InvalValComp_spec in E. split; [discriminate | lia].
  - split; [intros _ | reflexivity].
    assert (N : ~ (AllocVictimZone.valid_bytes_ b < AllocVictimZone.valid_bytes_ a \/
                   (AllocVictimZone.valid_bytes_ a = AllocVictimZone.valid_bytes_ b /\
                    AllocVictimZone.invalid_bytes_ a <
                    AllocVictimZone.invalid_bytes_ b))).
    { intros G. apply InvalValComp_spec in G. congruence. }
    lia.
Qed.

(** X2: [InvalValComp] is a strict weak ordering. *)
Theorem InvalValComp_strict_weak_order : strict_weak_order InvalValComp.
Proof.
  split; [exact InvalValComp_irrefl |]. split; [exact InvalValComp_trans |].
  intros a b c. rewrite !InvalValComp_false. lia.
Qed.

(** ** What is on top *)

Section PriorityQueueOrder.

Context {T : Type}.
Variable comp : T -> T -> bool.

Lemma pop_order_queue_Permutation (q q' : priority_queue) (l : list T) :
  Permutation q q' -> pop_order comp q l -> pop_order comp q' l.
Proof.
  intros P PO. destruct PO as [| q x q1 l [I Top] P1 PO].
  - apply Permutation_nil in P. subst q'. constructor.
  - apply pop_order_cons with (q' := q1).
    + split.
      * apply Permutation_in with (l := q); assumption.
      * intros y Hy. apply Top.
        apply Permutation_in with (l := q'); [symmetry |]; assumption.
    + etransitivity; [symmetry; exact P | exact P1].
    + exact PO.
Qed.

Lemma tie_free_Permutation (q q' : list T) :
  Permutation q q' -> tie_free comp q -> tie_free comp q'.
Proof.
  intros P F x y Hx Hy. apply F;
    (apply Permutation_in with (l := q'); [symmetry |]; assumption).
Qed.

Lemma tie_free_tail (x : T) (q : list T) :
  tie_free comp (x :: q) -> tie_free comp q.
Proof. intros F a b Ha Hb. apply F; right; assumption. Qed.

Lemma pop_order_unique (q : priority_queue) (l : list T) :
  pop_order comp q l ->
  tie_free comp q ->
  forall l', pop_order comp q l' -> l = l'.
Proof.
  induction 1 as [| q x q1 l [I Top] P PO IH]; intros F l' PO'.
  - inversion PO' as [| q0 x0 q2 l0 [I0 _] _ _]; [reflexivity |].
    subst. destruct I0.
  - inversion PO' as [E1 E2 | q0 x' q2 l1 [I' Top'] P' PO1]; subst.
    + destruct I.
    + assert (x = x') by (apply F; auto). subst x'.
      f_equal. apply IH.
      * apply tie_free_tail with (x := x).
        apply tie_free_Permutation with (q := q); assumption.
      * apply pop_order_queue_Permutation with (q := q2); [| exact PO1].
        apply Permutation_cons_inv with (a := x).
        etransitivity; [symmetry; exact P' | exact P].
Qed.

Hypothesis comp_irrefl : forall a, comp a a = false.
Hypothesis comp_trans :
  forall a b c, comp a b = true -> comp b c = true -> comp a c = true.

Lemma pq_top_nonempty (q : priority_queue) :
  q <> [] -> exists m, pq_top comp q = Some m /\ is_top comp q m.
Proof.
  intros N. destruct q as [| x q]; [contradiction |].
  exists (fst (extract comp x q)). split; [reflexivity |].
  apply pq_top_is_top; [assumption | assumption | reflexivity].
Qed.

Lemma pq_drain_unique (q : priority_queue) (l : list T) :
  tie_free comp q -> pop_order comp q l -> l = pq_drain comp q.
Proof.
  intros F PO. apply pop_order_unique with (q := q); [exact PO | exact F |].
  apply pq_drain_pop_order; assumption.
Qed.

Lemma pq_drain_Permutation_eq (q q' : priority_queue) :
  tie_free comp q -> Permutation q q' ->
  pq_drain comp q' = pq_drain comp q.
Proof.
  intros F P. apply pq_drain_unique; [exact F |].
  apply pop_order_queue_Permutation with (q := q'); [symmetry; exact P |].
  apply pq_drain_pop_order; assumption.
Qed.

End PriorityQueueOrder.

Lemma NoDup_map_injective {A B : Type} (f : A -> B) (l : list A) :
  NoDup (map f l) ->
  forall x y, In x l -> In y l -> f x = f y -> x = y.
Proof.
  induction l as [| a l IH]; intros N x y Hx Hy E; [destruct Hx |].
  simpl in N. inversion N as [| ? ? Na Nl]; subst.
  destruct Hx as [-> | Hx], Hy as [-> | Hy].
  - reflexivity.
  - exfalso. apply Na. rewrite E. apply in_map. exact Hy.
  - exfalso. apply Na. rewrite <- E. apply in_map. exact Hx.
  - apply IH; assumption.
Qed.

Lemma InvalComp_tie_free (q : list GCVictimZone.t) :
  NoDup (map GCVictimZone.get_inval_bytes q) -> tie_free InvalComp q.
Proof.
  intros N x y Hx Hy C1 C2.
  apply (NoDup_map_injective GCVictimZone.get_inval_bytes q N); try assumption.
  unfold InvalComp in C1, C2. apply Z.ltb_ge in C1, C2. lia.
Qed.

Lemma InvalValComp_tie_free (q : list AllocVictimZone.t) :
  NoDup (map alloc_key q) -> tie_free InvalValComp q.
Proof.
  intros N x y Hx Hy C1 C2.
  apply (NoDup_map_injective alloc_key q N); try assumption.
  apply InvalValComp_false in C1, C2.
  unfold alloc_key, AllocVictimZone.get_valid_bytes,
    AllocVictimZone.get_inval_bytes.
  f_equal; lia.
Qed.

(** X3: a non-empty [gc_queue_] has a top, and [top()] is a queued victim
    whose invalid bytes no queued victim exceeds. *)
Theorem gc_queue_top_has_most_invalid (q : list GCVictimZone.t) :
  q <> [] ->
  exists m,
    pq_top InvalComp q = Some m /\ In m q /\
    forall y, In y q ->
      GCVictimZone.get_inval_bytes y <= GCVictimZone.get_inval_bytes m.
Proof.
  intros N.
  destruct (pq_top_nonempty InvalComp InvalComp_irrefl InvalComp_trans q N)
    as (m & E & I & Top).
  exists m. split; [exact E |]. split; [exact I |].
  intros y Hy. specialize (Top y Hy). unfold InvalComp in Top.
  apply Z.ltb_ge in Top. exact Top.
Qed.

Lemma gc_queue_top_has_most_invalid_witness :
  exists m,
    pq_top InvalComp
      [GCVictimZone.mk 11 4096; GCVictimZone.mk 12 65536;
       GCVictimZone.mk 13 8192] = Some m /\
    In m [GCVictimZone.mk 11 4096; GCVictimZone.mk 12 65536;
          GCVictimZone.mk 13 8192] /\
    forall y,
      In y [GCVictimZone.mk 11 4096; GCVictimZone.mk 12 65536;
            GCVictimZone.mk 13 8192] ->
      GCVictimZone.get_inval_bytes y <= GCVictimZone.get_inval_bytes m.
Proof.
  apply gc_queue_top_has_most_invalid. discriminate.
Defined.

(** X4: a non-empty [allocate_queue_] has a top, and [top()] is a queued
    zone that is least in (valid bytes ascending, invalid bytes
    descending): every queued zone has more valid bytes, or as many valid
    bytes and no more invalid bytes. *)
Theorem allocate_queue_top_is_least (q : list AllocVictimZone.t) :
  q <> [] ->
  exists m,
    pq_top InvalValComp q = Some m /\ In m q /\
    forall y, In y q ->
      AllocVictimZone.get_valid_bytes m < AllocVictimZone.get_valid_bytes y \/
      (AllocVictimZone.get_valid_bytes m = AllocVictimZone.get_valid_bytes y /\
       AllocVictimZone.get_inval_bytes y <= AllocVictimZone.get_inval_bytes m).
Proof.
  intros N.
  destruct (pq_top_nonempty InvalValComp InvalValComp_irrefl
              InvalValComp_trans q N) as (m & E & I & Top).
  exists m. split; [exact E |]. split; [exact I |].
  intros y Hy. apply InvalValComp_false. apply Top. exact Hy.
Qed.

Lemma allocate_queue_top_is_least_witness :
  exists m,
    pq_top InvalValComp
      [AllocVictimZone.mk 21 0 131072; AllocVictimZone.mk 22 4096 65536;
       AllocVictimZone.mk 23 8192 65536] = Some m /\
    In m [AllocVictimZone.mk 21 0 131072; AllocVictimZone.mk 22 4096 65536;
          AllocVictimZone.mk 23 8192 65536] /\
    forall y,
      In y [AllocVictimZone.mk 21 0 131072; AllocVictimZone.mk 22 4096 65536;
            AllocVictimZone.mk 23 8192 65536] ->
      AllocVictimZone.get_valid_bytes m < AllocVictimZone.get_valid_bytes y \/
      (AllocVictimZone.get_valid_bytes m = AllocVictimZone.get_valid_bytes y /\
       AllocVictimZone.get_inval_bytes y <= AllocVictimZone.get_inval_bytes m).
Proof.
  apply allocate_queue_top_is_least. discriminate.
Defined.

(** X5: pushing onto [gc_queue_] and asking for the top.  Whatever is on
    top after [push(x)] has the larger of the invalid bytes of [x] and of
    the former top; on an empty queue the top is [x]. *)
Theorem gc_queue_push_top
    (q : list GCVictimZone.t) (x y : GCVictimZone.t) :
  is_top InvalComp (pq_push x q) y ->
  (q = [] -> y = x) /\
  (forall t, is_top InvalComp q t ->
     GCVictimZone.get_inval_bytes y
     = Z.max (GCVictimZone.get_inval_bytes t) (GCVictimZone.get_inval_bytes x)).
Proof.
  unfold pq_push. intros [I Top].
  assert (Ge : forall z, In z (q ++ [x]) ->
               GCVictimZone.get_inval_bytes z <= GCVictimZone.get_inval_bytes y).
  { intros z Hz. specialize (Top z Hz). unfold InvalComp in Top.
    apply Z.ltb_ge in Top. exact Top. }
  split.
  - intros ->. simpl in I. destruct I as [<- | []]. reflexivity.
  - intros t [It Topt].
    pose proof (Ge t (in_or_app _ _ _ (or_introl It))) as G1.
    pose proof (Ge x (in_or_app _ _ _ (or_intror (in_eq _ _)))) as G2.
    apply in_app_or in I. destruct I as [Iq | [<- | []]].
    + specialize (Topt y Iq). unfold InvalComp in Topt.
      apply Z.ltb_ge in Topt. lia.
    + lia.
Qed.

Lemma gc_queue_push_top_witness :
  GCVictimZone.get_inval_bytes (GCVictimZone.mk 12 65536)
  = Z.max (GCVictimZone.get_inval_bytes (GCVictimZone.mk 13 8192))
          (GCVictimZone.get_inval_bytes (GCVictimZone.mk 12 65536)).
Proof.
  refine (proj2 (gc_queue_push_top
                   [GCVictimZone.mk 11 4096; GCVictimZone.mk 13 8192]
                   (GCVictimZone.mk 12 65536) (GCVictimZone.mk 12 65536) _)
                (GCVictimZone.mk 13 8192) _).
  - split; [right; right; left; reflexivity |].
    intros z [<- | [<- | [<- | []]]]; reflexivity.
  - split; [right; left; reflexivity |].
    intros z [<- | [<- | []]]; reflexivity.
Defined.

(** X6: a zone pushed onto [allocate_queue_] with strictly fewer valid
    bytes than every queued zone is the top afterwards, and the only
    one. *)
Theorem allocate_queue_push_fewest_valid_on_top
    (q : list AllocVictimZone.t) (x : AllocVictimZone.t) :
  (forall z, In z q ->
     AllocVictimZone.get_valid_bytes x < AllocVictimZone.get_valid_bytes z) ->
  is_top InvalValComp (pq_push x q) x /\
  (forall y, is_top InvalValComp (pq_push x q) y -> y = x) /\
  pq_top InvalValComp (pq_push x q) = Some x.
Proof.
  intros Lt. unfold pq_push.
  assert (U : forall y, is_top InvalValComp (q ++ [x]) y -> y = x).
  { intros y [I Top]. apply in_app_or in I. destruct I as [Iq | [<- | []]];
      [| reflexivity].
    specialize (Top x (in_or_app _ _ _ (or_intror (in_eq _ _)))).
    apply InvalValComp_false in Top. specialize (Lt y Iq).
    unfold AllocVictimZone.get_valid_bytes in Lt. lia. }
  assert (Tx : is_top InvalValComp (q ++ [x]) x).
  { split; [apply in_or_app; right; left; reflexivity |].
    intros z Hz. apply InvalValComp_false.
    apply in_app_or in Hz. destruct Hz as [Hz | [<- | []]].
    - left. apply (Lt z Hz).
    - right. split; [reflexivity | lia]. }
  split; [exact Tx |]. split; [exact U |].
  assert (N : q ++ [x] <> []) by (destruct q; discriminate).
  destruct (pq_top_nonempty InvalValComp InvalValComp_irrefl
              InvalValComp_trans _ N) as (m & E & Tm).
  rewrite E. f_equal. apply U. exact Tm.
Qed.

Lemma allocate_queue_push_fewest_valid_on_top_witness :
  pq_top InvalValComp
    (pq_push (AllocVictimZone.mk 24 0 0)
       [AllocVictimZone.mk 21 0 131072; AllocVictimZone.mk 22 4096 65536])
  = Some (AllocVictimZone.mk 24 0 0).
Proof.
  apply allocate_queue_push_fewest_valid_on_top.
  intros z [<- | [<- | []]]; simpl; lia.
Defined.

(** X7: when no two queued victims have the same invalid bytes, the order
    in which [gc_queue_] is emptied is determined: it is the one
    [pq_drain] computes, and it does not depend on the order in which the
    victims were pushed. *)
Theorem gc_queue_order_determined
    (q q' l : list GCVictimZone.t) :
  NoDup (map GCVictimZone.get_inval_bytes q) ->
  Permutation q q' ->
  pop_order InvalComp q' l ->
  l = pq_drain InvalComp q /\ pq_drain InvalComp q' = pq_drain InvalComp q.
Proof.
  intros N P PO. pose proof (InvalComp_tie_free q N) as F. split.
  - apply pq_drain_unique;
      [exact InvalComp_irrefl | exact InvalComp_trans | exact F |].
    apply pop_order_queue_Permutation with (q := q'); [symmetry |]; assumption.
  - apply pq_drain_Permutation_eq;
      [exact InvalComp_irrefl | exact InvalComp_trans | exact F | exact P].
Qed.

Lemma gc_queue_order_determined_witness :
  pq_drain InvalComp
    [GCVictimZone.mk 13 8192; GCVictimZone.mk 11 4096;
     GCVictimZone.mk 12 65536]
  = pq_drain InvalComp
      [GCVictimZone.mk 11 4096; GCVictimZone.mk 12 65536;
       GCVictimZone.mk 13 8192].
Proof.
  refine (proj2 (gc_queue_order_determined
                   [GCVictimZone.mk 11 4096; GCVictimZone.mk 12 65536;
                    GCVictimZone.mk 13 8192]
                   [GCVictimZone.mk 13 8192; GCVictimZone.mk 11 4096;
                    GCVictimZone.mk 12 65536]
                   (pq_drain InvalComp
                      [GCVictimZone.mk 13 8192; GCVictimZone.mk 11 4096;
                       GCVictimZone.mk 12 65536]) _ _ _)).
  - simpl. repeat constructor; simpl; intuition discriminate.
  - apply Permutation_sym, Permutation_cons_append with
      (l := [GCVictimZone.mk 11 4096; GCVictimZone.mk 12 65536]).
  - apply pq_drain_pop_order; [exact InvalComp_irrefl | exact InvalComp_trans].
Defined.

(** X8: when no two queued zones agree on both valid and invalid bytes,
    the order in which [allocate_queue_] is emptied is determined and does
    not depend on the order of the pushes. *)
Theorem allocate_queue_order_determined
    (q q' l : list AllocVictimZone.t) :
  NoDup (map alloc_key q) ->
  Permutation q q' ->
  pop_order InvalValComp q' l ->
  l = pq_drain InvalValComp q /\
  pq_drain InvalValComp q' = pq_drain InvalValComp q.
Proof.
  intros N P PO. pose proof (InvalValComp_tie_free q N) as F. split.
  - apply pq_drain_unique;
      [exact InvalValComp_irrefl | exact InvalValComp_trans | exact F |].
    apply pop_order_queue_Permutation with (q := q'); [symmetry |]; assumption.
  - apply pq_drain_Permutation_eq;
      [exact InvalValComp_irrefl | exact InvalValComp_trans | exact F | exact P].
Qed.

Lemma allocate_queue_order_determined_witness :
  pq_drain InvalValComp
    [AllocVictimZone.mk 23 8192 65536; AllocVictimZone.mk 21 0 131072;
     AllocVictimZone.mk 22 4096 65536]
  = pq_drain InvalValComp
      [AllocVictimZone.mk 21 0 131072; AllocVictimZone.mk 22 4096 65536;
       AllocVictimZone.mk 23 8192 65536].
Proof.
  refine (proj2 (allocate_queue_order_determined
                   [AllocVictimZone.mk 21 0 131072;
                    AllocVictimZone.mk 22 4096 65536;
                    AllocVictimZone.mk 23 8192 65536]
                   [AllocVictimZone.mk 23 8192 65536;
                    AllocVictimZone.mk 21 0 131072;
                    AllocVictimZone.mk 22 4096 65536]
                   (pq_drain InvalValComp
                      [AllocVictimZone.mk 23 8192 65536;
                       AllocVictimZone.mk 21 0 131072;
                       AllocVictimZone.mk 22 4096 65536]) _ _ _)).
  - simpl. repeat constructor; simpl; intuition discriminate.
  - apply Permutation_sym, Permutation_cons_append with
      (l := [AllocVictimZone.mk 21 0 131072; AllocVictimZone.mk 22 4096 65536]).
  - apply pq_drain_pop_order;
      [exact InvalValComp_irrefl | exact InvalValComp_trans].
Defined.

(** ** [ZoneExtentInfo]: repeated invalidation and the constructor *)

Lemma set_valid_set_valid (e : ZoneExtentInfo.t) (a b : bool) :
  ZoneExtentInfo.set_valid (ZoneExtentInfo.set_valid e a) b
  = ZoneExtentInfo.set_valid e b.
Proof. reflexivity. Qed.

(** X9: [n + 1] calls of [invalidate] in a row, on an extent whose pointer
    passes the assertion, all return; they change nothing but [valid_],
    which ends [false]; and they write one warning line per call made on
    an already invalid extent: [n] lines if the extent was valid at
    first, [n + 1] if it was not. *)
Theorem invalidate_times_warnings
    (ndebug : bool) (n : nat) (e : ZoneExtentInfo.t) :
  ndebug = true \/ ZoneExtentInfo.extent_ e <> nullptr ->
  ZoneExtentInfo.invalidate_times ndebug (S n) e
  = Returned (ZoneExtentInfo.set_valid e false)
      (repeat ZoneExtentInfo.invalid_extent_msg
         (if ZoneExtentInfo.valid_ e then n else S n)).
Proof.
  revert e. induction n as [| n IH]; intros e H.
  - cbn [ZoneExtentInfo.invalidate_times].
    rewrite (invalidate_returns _ _ H).
    destruct (ZoneExtentInfo.valid_ e); reflexivity.
  - change (ZoneExtentInfo.invalidate_times ndebug (S (S n)) e)
      with (match ZoneExtentInfo.invalidate ndebug e with
            | AssertionFailed x => AssertionFailed x
            | Returned e' err =>
                match ZoneExtentInfo.invalidate_times ndebug (S n) e' with
                | AssertionFailed x => AssertionFailed x
                | Returned e'' err' => Returned e'' (err ++ err')
                end
            end).
    rewrite (invalidate_returns _ _ H).
    rewrite IH by exact H.
    rewrite set_valid_set_valid.
    destruct (ZoneExtentInfo.valid_ e); reflexivity.
Qed.

Lemma invalidate_times_warnings_witness :
  ZoneExtentInfo.invalidate_times false 3
    (ZoneExtentInfo.ctor 4096 8192 true 65536 0 12288
       "000012.sst" WLTH_MEDIUM 1)
  = Returned
      (ZoneExtentInfo.ctor 4096 8192 false 65536 0 12288
         "000012.sst" WLTH_MEDIUM 1)
      [ZoneExtentInfo.invalid_extent_msg; ZoneExtentInfo.invalid_extent_msg].
Proof.
  apply (invalidate_times_warnings false 2
           (ZoneExtentInfo.ctor 4096 8192 true 65536 0 12288
              "000012.sst" WLTH_MEDIUM 1)).
  right. unfold nullptr. simpl. lia.
Defined.

(** X10: a run of [invalidate] calls is stopped by the assertion exactly
    when at least one call is made, assertions are compiled in and the
    extent pointer is null; it is then stopped at the first call. *)
Theorem invalidate_times_aborts_iff
    (ndebug : bool) (n : nat) (e : ZoneExtentInfo.t) :
  (exists x, ZoneExtentInfo.invalidate_times ndebug n e = AssertionFailed x)
  <-> (n <> O /\ ndebug = false /\ ZoneExtentInfo.extent_ e = nullptr).
Proof.
  split.
  - intros [x A]. destruct n as [| n]; [discriminate |].
    split; [discriminate |].
    destruct ndebug.
    + rewrite invalidate_times_warnings in A by (left; reflexivity).
      discriminate.
    + split; [reflexivity |].
      destruct (Z.eq_dec (ZoneExtentInfo.extent_ e) nullptr) as [E | E];
        [exact E |].
      rewrite invalidate_times_warnings in A by (right; exact E).
      discriminate.
  - intros (N & -> & E). destruct n as [| n]; [contradiction |].
    cbn [ZoneExtentInfo.invalidate_times].
    unfold ZoneExtentInfo.invalidate. rewrite E. simpl.
    eexists. reflexivity.
Qed.

(** X11: the constructor narrows its 64-bit [length] to the 32-bit
    member.  The stored length is always below 2^32; it is the argument
    exactly when the argument is below 2^32, and two arguments 2^32 apart
    are stored alike.  The other arguments are stored as given. *)
Theorem ctor_narrows_length
    (extent zone_file : pointer) (valid : bool) (length start : Z)
    (zone : pointer) (fname : string) (lt : WriteLifeTimeHint) (level : Z) :
  0 <= length < 2 ^ 64 ->
  0 <= ZoneExtentInfo.length_
         (ZoneExtentInfo.ctor extent zone_file valid length start zone
            fname lt level) < 2 ^ 32 /\
  (ZoneExtentInfo.length_
     (ZoneExtentInfo.ctor extent zone_file valid length start zone
        fname lt level) = length <-> length < 2 ^ 32) /\
  ZoneExtentInfo.ctor extent zone_file valid (length + 2 ^ 32) start zone
    fname lt level
  = ZoneExtentInfo.ctor extent zone_file valid length start zone
      fname lt level /\
  ZoneExtentInfo.start_
    (ZoneExtentInfo.ctor extent zone_file valid length start zone
       fname lt level) = start /\
  ZoneExtentInfo.valid_
    (ZoneExtentInfo.ctor extent zone_file valid length start zone
       fname lt level) = valid.
Proof.
  intros B. cbn [ZoneExtentInfo.ctor ZoneExtentInfo.length_
                 ZoneExtentInfo.start_ ZoneExtentInfo.valid_].
  unfold uint32_wrap.
  pose proof (Z.mod_pos_bound length (2 ^ 32) ltac:(lia)) as M.
  split; [exact M |]. split; [| split; [| split; reflexivity]].
  - split.
    + intros E. rewrite <- E. apply M.
    + intros L. apply Z.mod_small. lia.
  - unfold ZoneExtentInfo.ctor, uint32_wrap. f_equal.
    rewrite <- (Z.mul_1_l (2 ^ 32)) at 1. apply Z.mod_add. lia.
Qed.

Lemma ctor_narrows_length_witness :
  ZoneExtentInfo.ctor 4096 8192 true (4096 + 2 ^ 32) 0 12288
    "000012.sst" WLTH_MEDIUM 1
  = ZoneExtentInfo.ctor 4096 8192 true 4096 0 12288
      "000012.sst" WLTH_MEDIUM 1.
Proof.
  apply (ctor_narrows_length 4096 8192 true 4096 0 12288
           "000012.sst" WLTH_MEDIUM 1).
  lia.
Defined.

(** ** [ZoneFile]: the synced prefix *)

(** X12: [MetadataSynced] leaves [0 <= nr_synced_extents_ <= |extents_|]
    behind, for every file; the count equals the length of the list
    exactly when that length is below 2^32.  It changes no other field,
    and a second call changes nothing. *)
Theorem MetadataSynced_synced_prefix (f : ZoneFile.t) :
  0 <= ZoneFile.nr_synced_extents_ (ZoneFile.MetadataSynced f)
    <= Z.of_nat (List.length (ZoneFile.extents_ (ZoneFile.MetadataSynced f))) /\
  (ZoneFile.nr_synced_extents_ (ZoneFile.MetadataSynced f)
   = Z.of_nat (List.length (ZoneFile.extents_ f))
   <-> Z.of_nat (List.length (ZoneFile.extents_ f)) < 2 ^ 32) /\
  ZoneFile.metadata_of (ZoneFile.MetadataSynced f) = ZoneFile.metadata_of f /\
  ZoneFile.MetadataSynced (ZoneFile.MetadataSynced f)
  = ZoneFile.MetadataSynced f.
Proof.
  cbn [ZoneFile.MetadataSynced ZoneFile.nr_synced_extents_ ZoneFile.extents_].
  unfold uint32_wrap.
  pose proof (Z.mod_pos_bound
                (Z.of_nat (List.length (ZoneFile.extents_ f))) (2 ^ 32)
                ltac:(lia)) as M.
  pose proof (Z.mod_le
                (Z.of_nat (List.length (ZoneFile.extents_ f))) (2 ^ 32)
                ltac:(lia) ltac:(lia)) as L.
  split; [lia |]. split; [| split; reflexivity].
  split.
  - intros E. rewrite <- E. apply M.
  - intros B. apply Z.mod_small. lia.
Qed.

(** X13: [UpdateExtents] replaces the extent list and nothing else; in
    particular it keeps [nr_synced_extents_].  So after a replacement by a
    list shorter than the synced count, the count exceeds the length of
    the list, until [MetadataSynced] brings it back to the length. *)
Theorem UpdateExtents_keeps_synced_count
    (f : ZoneFile.t) (a : list ZoneExtent.t) :
  Z.of_nat (List.length a) < ZoneFile.nr_synced_extents_ f ->
  Z.of_nat (List.length a) < 2 ^ 32 ->
  ZoneFile.GetExtents (ZoneFile.UpdateExtents f a) = a /\
  ZoneFile.nr_synced_extents_ (ZoneFile.UpdateExtents f a)
  = ZoneFile.nr_synced_extents_ f /\
  Z.of_nat (List.length (ZoneFile.GetExtents (ZoneFile.UpdateExtents f a)))
  < ZoneFile.nr_synced_extents_ (ZoneFile.UpdateExtents f a) /\
  ZoneFile.nr_synced_extents_
    (ZoneFile.MetadataSynced (ZoneFile.UpdateExtents f a))
  = Z.of_nat (List.length a) /\
  ZoneFile.file_id_ (ZoneFile.UpdateExtents f a) = ZoneFile.file_id_ f /\
  ZoneFile.fileSize (ZoneFile.UpdateExtents f a) = ZoneFile.fileSize f.
Proof.
  intros Lt B.
  split; [reflexivity |]. split; [reflexivity |]. split; [exact Lt |].
  split; [| split; reflexivity].
  cbn [ZoneFile.MetadataSynced ZoneFile.UpdateExtents
       ZoneFile.nr_synced_extents_ ZoneFile.extents_].
  unfold uint32_wrap. apply Z.mod_small. lia.
Qed.

Lemma UpdateExtents_keeps_synced_count_witness :
  ZoneFile.nr_synced_extents_
    (ZoneFile.MetadataSynced
       (ZoneFile.UpdateExtents
          (ZoneFile.mk 4096
             [ZoneExtent.mk 1048576 65536 4; ZoneExtent.mk 2097152 32768 8]
             nullptr 0 0 WLTH_MEDIUM 98304
             (list_byte_of_string "000012.sst") 12 2
             (list_byte_of_string "a") (list_byte_of_string "m") 1
             false false true 12)
          [ZoneExtent.mk 3145728 98304 12]))
  = 1.
Proof.
  apply (UpdateExtents_keeps_synced_count
           (ZoneFile.mk 4096
              [ZoneExtent.mk 1048576 65536 4; ZoneExtent.mk 2097152 32768 8]
              nullptr 0 0 WLTH_MEDIUM 98304
              (list_byte_of_string "000012.sst") 12 2
              (list_byte_of_string "a") (list_byte_of_string "m") 1
              false false true 12)
           [ZoneExtent.mk 3145728 98304 12]).
  - simpl. lia.
  - simpl. lia.
Defined.

(** ** [Zone::PushExtentInfo] *)

Lemma PushExtentInfos_fields (infos : list ZoneExtentInfo.t) :
  forall z,
    Zone.extent_info_ (PushExtentInfos z infos) = Zone.extent_info_ z ++ infos /\
    Zone.wp_ (PushExtentInfos z infos) = Zone.wp_ z /\
    Zone.capacity_ (PushExtentInfos z infos) = Zone.capacity_ z /\
    Zone.used_capacity_ (PushExtentInfos z infos) = Zone.used_capacity_ z.
Proof.
  unfold PushExtentInfos.
  induction infos as [| i infos IH]; intros z; simpl.
  - rewrite app_nil_r. repeat split.
  - destruct (IH (Zone.PushExtentInfo z i)) as (E & W & C & U).
    rewrite E, W, C, U. simpl. rewrite <- app_assoc. repeat split.
Qed.

(** X14: extent infos pushed one after the other land at the back of the
    zone's list in the order of the calls; the infos already there keep
    their index; and pushing moves neither the write pointer nor the
    remaining or used capacity (a pushed info that is valid is not added
    to [used_capacity_] by the push). *)
Theorem PushExtentInfo_appends_in_order
    (z : Zone.t) (infos : list ZoneExtentInfo.t) :
  Zone.extent_info_ (PushExtentInfos z infos) = Zone.extent_info_ z ++ infos /\
  (forall i e,
      nth_error (Zone.extent_info_ z) i = Some e ->
      nth_error (Zone.extent_info_ (PushExtentInfos z infos)) i = Some e) /\
  (forall i,
      nth_error (Zone.extent_info_ (PushExtentInfos z infos))
        (List.length (Zone.extent_info_ z) + i)
      = nth_error infos i) /\
  Zone.wp_ (PushExtentInfos z infos) = Zone.wp_ z /\
  Zone.capacity_ (PushExtentInfos z infos) = Zone.capacity_ z /\
  Zone.used_capacity_ (PushExtentInfos z infos) = Zone.used_capacity_ z.
Proof.
  destruct (PushExtentInfos_fields infos z) as (E & W & C & U).
  split; [exact E |]. split; [| split; [| repeat split; assumption]].
  - intros i e H. rewrite E. rewrite nth_error_app1; [exact H |].
    apply nth_error_Some. rewrite H. discriminate.
  - intros i. rewrite E. rewrite nth_error_app2 by lia.
    f_equal. lia.
Qed.
